(** * predictor/main.py: the forecasting loop, embedded and verified

    The source is a single module.  It pulls a CPU-usage range series and a
    CPU limit from Prometheus, normalises the series with pandas, turns it
    into a lagged supervised dataset ([make_supervised]), fits a Lasso
    model on an ordered split, clamps the one-step forecast and publishes
    it on the gauge [G].

    Data model of this file
    - a Python [float] is an IEEE-754 binary64 value: [spec_float] with
      precision 53 and maximal exponent 1024, with the Standard Library's
      executable operations;
    - a pandas Series is the list of its values in index order, together
      with the timestamps where the code looks at them;
    - the gauge [G] is a finite map from the label value to the stored
      float;
    - scikit-learn's scaler and regressor are interfaces (type classes):
      the theorems hold for every implementation, and a small reference
      implementation is used to run the development on concrete inputs. *)

From Stdlib Require Import ZArith List Bool Lia Sorting.Sorted Sorting.Permutation.
From Stdlib Require Import Floats.SpecFloat.
From stdpp Require Import base option list gmap strings fin_maps.

Local Open Scope Z_scope.

(** ** Python floats *)

Module PyFloat.

Definition float := spec_float.

Definition prec : Z := 53.
Definition emax : Z := 1024.

Definition nan : float := S754_nan.

Definition of_Z (z : Z) : float := binary_normalize prec emax z 0 false.

Definition add : float -> float -> float := SFadd prec emax.
Definition sub : float -> float -> float := SFsub prec emax.
Definition mul : float -> float -> float := SFmul prec emax.
Definition div : float -> float -> float := SFdiv prec emax.
Definition sqrt : float -> float := SFsqrt prec emax.

(** [a < b], [a > b], [a <= b]: false as soon as one side is NaN. *)
Definition ltb : float -> float -> bool := SFltb.
Definition gtb (a b : float) : bool := SFltb b a.
Definition leb : float -> float -> bool := SFleb.

(** [pd.isna] on a float cell. *)
Definition isnan (x : float) : bool :=
  match x with S754_nan => true | _ => false end.

(** The literals of the source. *)
Definition f0_0 : float := S754_zero false.
Definition f2_0 : float := Eval vm_compute in of_Z 2.
Definition f0_1 : float := Eval vm_compute in div (of_Z 1) (of_Z 10).

(** Builtin [min(a, b)] and [max(a, b)] with two positional arguments:
    the first argument is kept unless the second compares strictly
    below (resp. above) it. *)
Definition py_min (a b : float) : float := if ltb b a then b else a.
Definition py_max (a b : float) : float := if gtb b a then b else a.

#[global] Instance float_eq_dec : EqDecision float.
Proof. solve_decision. Defined.

End PyFloat.

Import PyFloat.

(** ** Exceptions, query payloads and configuration *)

(** The exception classes an iteration can meet; all of them are caught by
    the [except Exception] of [loop]. *)
Inductive exn : Type :=
  | RequestException   (* timeout, connection error, [raise_for_status] *)
  | KeyError           (* a missing key in the decoded JSON *)
  | ValueError         (* a malformed number, a library's input validation *)
  | IndexError.        (* an index out of range *)

Inductive res (A : Type) : Type :=
  | Val (a : A)
  | Raise (e : exn).
Arguments Val {A} a.
Arguments Raise {A} e.

(** A raw usage sample [(ts, value)].  Prometheus stamps the samples of a
    range query at [start + k * step]; [prom_range] sends an integral
    [start] and the step is 60 s, so [ts] is a whole number of seconds. *)
Abbreviation point := (Z * float)%type.

(** [jr.get("data", {}).get("result", [])]: one entry per result series,
    each with its ["values"] list. *)
Definition range_json : Type := list (list point).

(** [jl["data"]["result"]]: one entry per result sample, each reduced to
    its [["value"][1]] read as a float. *)
Definition instant_json : Type := list float.

Abbreviation matrix := (list (list float)).

Record config : Type := {
  NAMESPACE : string;
  DEPLOY : string;
  LAGS : nat;        (* a negative LAGS leaves range(1, LAGS + 1) empty, as 0 does *)
  INTERVAL : Z
}.

(** ** Series normalisation (lines 144-164 of [loop]) *)

(** The nested comprehension that flattens the range result. *)
Definition flatten_points (jr : range_json) : list point := concat jr.

(** [df.sort_values("ts")]: ascending by timestamp.  The default sort kind
    (quicksort) is not stable: the order in which points with equal
    timestamps come out is not fixed by pandas.  The insertion below yields
    one of the admissible frames; a property that depends on the order among
    equal timestamps is stated for every sorted rearrangement of the
    points. *)
Fixpoint insert_by_ts (p : point) (l : list point) : list point :=
  match l with
  | [] => [p]
  | q :: r => if fst p <=? fst q then p :: q :: r else q :: insert_by_ts p r
  end.

Fixpoint sort_values (l : list point) : list point :=
  match l with
  | [] => []
  | p :: r => insert_by_ts p (sort_values r)
  end.

(** The 5-second bin of a timestamp: bins are left-closed, anchored at
    midnight, hence at the multiples of 5 s. *)
Definition bucket (t : Z) : Z := t / 5.

Definition in_bucket (k : Z) (p : point) : bool := bucket (fst p) =? k.

Definition notnan (v : float) : bool := negb (isnan v).

(** Bin aggregation [.mean()]: missing values are skipped, a bin without a
    value is missing; otherwise the sum of the present values, in index
    order, over their count.  pandas sums with a compensation term (Kahan):
    each value is first corrected by the rounding error of the previous
    addition, and an error that is not a number (an infinite sum) is reset
    to zero.  The sum of a bin with one value is that value, a negative
    zero included. *)
Definition kahan_step (acc : float * float) (val : float) : float * float :=
  let '(sumx, compensation) := acc in
  let y := sub val compensation in
  let t := add sumx y in
  let c := sub (sub t sumx) y in
  (t, if isnan c then f0_0 else c).

Definition compensated_sum (x : float) (xs : list float) : float :=
  fst (fold_left kahan_step xs (x, f0_0)).

Definition mean (vs : list float) : float :=
  match List.filter notnan vs with
  | [] => nan
  | x :: xs => div (compensated_sum x xs)
                   (of_Z (Z.of_nat (length (x :: xs))))
  end.

Definition bucket_values (k : Z) (df : list point) : list float :=
  map snd (List.filter (in_bucket k) df).

(** [s.resample("5s").mean()] on a series sorted by timestamp: one slot per
    bin from the bin of the first sample to the bin of the last one,
    labelled by the left edge of the bin. *)
Definition resample_5s_mean (df : list point) : list point :=
  match df with
  | [] => []
  | p0 :: _ =>
      let lo := bucket (fst p0) in
      let hi := bucket (fst (List.last df p0)) in
      map (fun k => (5 * k, mean (bucket_values k df))) (seqZ lo (hi - lo + 1))
  end.

(** [.ffill()]: a missing value takes the nearest earlier value. *)
Fixpoint ffill_from (prev : float) (s : list point) : list point :=
  match s with
  | [] => []
  | (t, v) :: r =>
      let v' := if isnan v then prev else v in
      (t, v') :: ffill_from v' r
  end.

Definition ffill (s : list point) : list point := ffill_from nan s.

(** [.bfill()]: a missing value takes the nearest later value, which is
    the value of the next slot once that one is filled. *)
Fixpoint bfill (s : list point) : list point :=
  match s with
  | [] => []
  | (t, v) :: r =>
      let r' := bfill r in
      let v' := if isnan v
                then match r' with (_, w) :: _ => w | [] => nan end
                else v in
      (t, v') :: r'
  end.

(** [s.tail(n)]. *)
Definition tail {A : Type} (n : nat) (s : list A) : list A :=
  drop (length s - n) s.

(** Lines 157-164: from the raw points to the dense 5-second series. *)
Definition normalize (points : list point) : list point :=
  let df := sort_values points in
  let s := bfill (ffill (resample_5s_mean df)) in
  tail (length s) s.

(** ** The limit and the utilisation series (lines 172-181) *)

(** The conditional expression of line 173 followed by the guard of line 176. *)
Definition effective_limit (jl : instant_json) : float :=
  let limit := match jl with v :: _ => v | [] => f0_1 end in
  if leb limit f0_0 then f0_1 else limit.

(** [util = s / limit]; the index is carried along unchanged and the steps
    that follow are positional, so only the values are kept. *)
Definition utilization (s : list point) (limit : float) : list float :=
  map (fun p => div (snd p) limit) s.

(** ** Feature engineering: [make_supervised] *)

(** [ts.shift(i)]: the values move down by [i] positions, the first [i]
    positions become missing. *)
Definition shift (i : nat) (ts : list float) : list float :=
  replicate (Nat.min i (length ts)) nan ++ take (length ts - i) ts.

(** The columns [lag_1 .. lag_L] of [X]. *)
Definition lag_columns (ts : list float) (lags : nat) : list (list float) :=
  map (fun i => shift i ts) (seq 1 lags).

(** Row [r] of a frame given by its columns. *)
Definition frame_row (cols : list (list float)) (r : nat) : list float :=
  map (fun c => nth r c nan) cols.

(** A row of [pd.concat([X, y], axis=1)] survives [dropna()] when none of
    its cells is missing. *)
Definition row_complete (row : list float * float) : bool :=
  forallb notnan (fst row) && notnan (snd row).

Definition make_supervised (ts : list float) (lags : nat) : matrix * list float :=
  let X := lag_columns ts lags in
  let y := ts in
  let df := List.filter row_complete
              (map (fun r => (frame_row X r, nth r y nan)) (seq 0 (length ts))) in
  (map fst df, map snd df).

(** The frame before [dropna], row by row. *)
Definition frame_rows (ts : list float) (L : nat) (rs : list nat)
  : list (list float * float) :=
  map (fun r => (frame_row (lag_columns ts L) r, nth r ts nan)) rs.

(** A series is dense when none of its values is missing. *)
Definition dense (ts : list float) : Prop := Forall (fun v => isnan v = false) ts.

(** ** Notions used to state the properties of the normaliser *)

Definition ts_le (p q : point) : Prop := fst p <= fst q.

Definition at_ts (t : Z) (p : point) : bool := fst p =? t.

(** The value a last-write-wins rule would keep for the timestamp [t]: the
    value of the last point of the input, in input order, stamped [t]. *)
Definition last_written (t : Z) (points : list point) : option float :=
  last (map snd (List.filter (at_ts t) points)).

(** The samples of [s] are stamped [t], [t + step], [t + 2 * step], ... *)
Fixpoint on_cadence (step t : Z) (s : list point) : Prop :=
  match s with
  | [] => True
  | p :: r => fst p = t /\ on_cadence step (t + step) r
  end.

(** The representation invariant of a binary64 value (every Python float
    satisfies it), and the negative zero. *)
Definition is_double (v : float) : Prop := valid_binary prec emax v = true.

Definition neg_zero : float := S754_zero true.

Definition f1_0 : float := Eval vm_compute in of_Z 1.

(** A present value that is not the negative zero. *)
Definition plain_value (v : float) : Prop :=
  is_double v /\ isnan v = false /\ v <> neg_zero.


(** ** scikit-learn: the ordered split, and the two estimators as interfaces *)

(** [train_test_split(Xs, y, test_size=0.2, shuffle=False)]: the test part
    has [ceil(0.2 * n)] rows, which is [ceil(n / 5)] for every [n] a
    double represents exactly; the train part is the rest, taken from the
    front.  Arrays of different lengths and an empty train part are
    refused. *)
Definition n_test (n : nat) : nat := ((n + 4) / 5)%nat.

Definition train_test_split (Xs : matrix) (y : list float)
  : res (matrix * matrix * list float * list float) :=
  let n := length Xs in
  if negb (n =? length y)%nat then Raise ValueError
  else
    let n_train := (n - n_test n)%nat in
    if (n_train =? 0)%nat then Raise ValueError
    else Val (take n_train Xs, drop n_train Xs, take n_train y, drop n_train y).

(** [StandardScaler(with_mean=True)]: [fit] learns the per-feature
    statistics of the matrix it is given, [transform] applies them. *)
Class StandardScaler : Type := {
  scaler : Type;
  scaler_fit : matrix -> res scaler;
  scaler_transform : scaler -> matrix -> res matrix
}.

(** [Lasso(alpha=0.0005, max_iter=5000)]. *)
Class Lasso : Type := {
  lasso : Type;
  lasso_fit : matrix -> list float -> res lasso;
  lasso_predict : lasso -> matrix -> res (list float)
}.

(** [util.iloc[-i]] for [i >= 1]. *)
Definition iloc_neg (util : list float) (i : nat) : res float :=
  if (i <=? length util)%nat
  then match util !! (length util - i)%nat with
       | Some v => Val v
       | None => Raise IndexError
       end
  else Raise IndexError.

(** The list comprehension of line 209, evaluated left to right. *)
Fixpoint collect (rs : list (res float)) : res (list float) :=
  match rs with
  | [] => Val []
  | Val v :: rest =>
      match collect rest with
      | Val vs => Val (v :: vs)
      | Raise e => Raise e
      end
  | Raise e :: _ => Raise e
  end.

Definition latest_window (util : list float) (lags : nat) : res (list float) :=
  collect (map (iloc_neg util) (seq 1 lags)).

(** [pd.DataFrame(values).T]: a single row, or the empty frame when there
    is no value. *)
Definition row_frame (values : list float) : matrix :=
  match values with
  | [] => []
  | _ => [values]
  end.

(** [model.predict(x_last)[0]]. *)
Definition item0 (a : list float) : res float :=
  match a with
  | v :: _ => Val v
  | [] => Raise IndexError
  end.

(** Line 219. *)
Definition clamp (yhat : float) : float := py_max f0_0 (py_min yhat f2_0).

(** ** The loop *)

(** The gauge [G]: one stored value per label value. *)
Abbreviation gauge := (gmap string float).

(** What the [/metrics] endpoint lists for the gauge. *)
Definition metrics (G : gauge) : list (string * float) := map_to_list G.

Inductive flow : Type :=
  | FallThrough     (* the body ran to its end *)
  | Continue.       (* the body executed [continue] *)

Section Loop.

Context `{SS : StandardScaler} `{LM : Lasso}.

(** The effects of an iteration, in the order they happen. *)
Inductive event : Type :=
  | ev_sleep (secs : Z)
  | ev_log_error (e : exn)
  | ev_gauge_set (label : string) (v : float)
  | ev_scaler_fit (X : matrix)
  | ev_scaler_transform (sc : scaler) (X : matrix)
  | ev_lasso_fit (Xtr : matrix) (ytr : list float)
  | ev_lasso_predict (model : lasso) (x : matrix).

(** A computation reads and writes the gauge, emits events, and returns
    or raises. *)
Definition M (A : Type) : Type := gauge -> res A * gauge * list event.

Definition ret {A} (a : A) : M A := fun G => (Val a, G, []).

Definition bind {A B} (m : M A) (k : A -> M B) : M B :=
  fun G =>
    match m G with
    | (Val a, G1, evs1) =>
        match k a G1 with
        | (r, G2, evs2) => (r, G2, evs1 ++ evs2)
        end
    | (Raise e, G1, evs1) => (Raise e, G1, evs1)
    end.

Definition lift {A} (r : res A) : M A := fun G => (r, G, []).

Definition emit (ev : event) : M unit := fun G => (Val tt, G, [ev]).

Notation "x <- m ;; k" := (bind m (fun x => k))
  (at level 100, m at next level, right associativity).
Notation "m ;;; k" := (bind m (fun _ => k))
  (at level 100, right associativity).

(** [G.labels(label).set(v)]. *)
Definition gauge_set (label : string) (v : float) : M unit :=
  fun G => (Val tt, <[label := v]> G, [ev_gauge_set label v]).

(** [time.sleep(secs)]: the call is recorded in the trace.  The call
    returns when [secs] is an interval that [time.sleep] accepts, see
    [sleep_accepts]; the properties that count the sleeps of a turn are
    stated for such an interval. *)
Definition sleep (secs : Z) : M unit := emit (ev_sleep secs).

Definition call_scaler_fit (X : matrix) : M scaler :=
  emit (ev_scaler_fit X) ;;; lift (scaler_fit X).

Definition call_scaler_transform (sc : scaler) (X : matrix) : M matrix :=
  emit (ev_scaler_transform sc X) ;;; lift (scaler_transform sc X).

Definition call_lasso_fit (Xtr : matrix) (ytr : list float) : M lasso :=
  emit (ev_lasso_fit Xtr ytr) ;;; lift (lasso_fit Xtr ytr).

Definition call_lasso_predict (model : lasso) (x : matrix) : M (list float) :=
  emit (ev_lasso_predict model x) ;;; lift (lasso_predict model x).

(** Lines 193-223: the [else] branch. *)
Definition fit_and_publish (cfg : config) (util : list float)
    (X : matrix) (y : list float) : M unit :=
  sc <- call_scaler_fit X ;;
  Xs <- call_scaler_transform sc X ;;
  split <- lift (train_test_split Xs y) ;;
  let '(Xtr, Xte, ytr, yte) := split in
  model <- call_lasso_fit Xtr ytr ;;
  x_last_raw <- lift (latest_window util (LAGS cfg)) ;;
  x_last <- call_scaler_transform sc (row_frame x_last_raw) ;;
  pred <- call_lasso_predict model x_last ;;
  yhat <- lift (item0 pred) ;;
  gauge_set (DEPLOY cfg) (clamp yhat).

(** Lines 185-225. *)
Definition forecast (cfg : config) (util : list float) : M unit :=
  let '(X, y) := make_supervised util (LAGS cfg) in
  if (length X <? 20)%nat
  then gauge_set (DEPLOY cfg) f0_0
  else fit_and_publish cfg util X y.

(** The body of the [try], given what the two queries answer. *)
Definition iteration (cfg : config)
    (range_answer : res range_json) (instant_answer : res instant_json)
  : M flow :=
  jr <- lift range_answer ;;
  match flatten_points jr with
  | [] => sleep (INTERVAL cfg) ;;; ret Continue
  | p :: ps =>
      let s := normalize (p :: ps) in
      jl <- lift instant_answer ;;
      let util := utilization s (effective_limit jl) in
      forecast cfg util ;;; ret FallThrough
  end.

(** The utilisation series of an iteration whose two queries answered. *)
Definition iteration_util (jr : range_json) (jl : instant_json) : list float :=
  utilization (normalize (flatten_points jr)) (effective_limit jl).

(** Reading a trace: the arguments of the estimator calls and the values
    written to the gauge, in order. *)
Definition scaler_fit_inputs (evs : list event) : list matrix :=
  flat_map (fun ev => match ev with ev_scaler_fit X => [X] | _ => [] end) evs.

Definition transform_calls (evs : list event) : list (scaler * matrix) :=
  flat_map (fun ev => match ev with
                      | ev_scaler_transform sc X => [(sc, X)]
                      | _ => []
                      end) evs.

Definition lasso_fit_calls (evs : list event) : list (matrix * list float) :=
  flat_map (fun ev => match ev with
                      | ev_lasso_fit Xtr ytr => [(Xtr, ytr)]
                      | _ => []
                      end) evs.

Definition predict_calls (evs : list event) : list (lasso * matrix) :=
  flat_map (fun ev => match ev with
                      | ev_lasso_predict model x => [(model, x)]
                      | _ => []
                      end) evs.

Definition published (evs : list event) : list (string * float) :=
  flat_map (fun ev => match ev with
                      | ev_gauge_set label v => [(label, v)]
                      | _ => []
                      end) evs.

(** The runs of the [else] branch, one rule per place where it can stop:
    each estimator call, the split, the window and the indexing of the
    prediction may raise; otherwise the clamped forecast is published.
    [fit_and_publish] follows these rules (lemma [fit_and_publish_run]). *)
Inductive fit_run (cfg : config) (util : list float) (X : matrix)
    (y : list float) (G : gauge) : res unit * gauge * list event -> Prop :=
  | run_scaler_fit_raises e :
      scaler_fit X = Raise e ->
      fit_run cfg util X y G (Raise e, G, [ev_scaler_fit X])
  | run_transform_raises sc e :
      scaler_fit X = Val sc ->
      scaler_transform sc X = Raise e ->
      fit_run cfg util X y G
        (Raise e, G, [ev_scaler_fit X; ev_scaler_transform sc X])
  | run_split_raises sc Xs e :
      scaler_fit X = Val sc ->
      scaler_transform sc X = Val Xs ->
      train_test_split Xs y = Raise e ->
      fit_run cfg util X y G
        (Raise e, G, [ev_scaler_fit X; ev_scaler_transform sc X])
  | run_lasso_fit_raises sc Xs Xtr Xte ytr yte e :
      scaler_fit X = Val sc ->
      scaler_transform sc X = Val Xs ->
      train_test_split Xs y = Val (Xtr, Xte, ytr, yte) ->
      lasso_fit Xtr ytr = Raise e ->
      fit_run cfg util X y G
        (Raise e, G,
         [ev_scaler_fit X; ev_scaler_transform sc X; ev_lasso_fit Xtr ytr])
  | run_window_raises sc Xs Xtr Xte ytr yte model e :
      scaler_fit X = Val sc ->
      scaler_transform sc X = Val Xs ->
      train_test_split Xs y = Val (Xtr, Xte, ytr, yte) ->
      lasso_fit Xtr ytr = Val model ->
      latest_window util (LAGS cfg) = Raise e ->
      fit_run cfg util X y G
        (Raise e, G,
         [ev_scaler_fit X; ev_scaler_transform sc X; ev_lasso_fit Xtr ytr])
  | run_transform_window_raises sc Xs Xtr Xte ytr yte model w e :
      scaler_fit X = Val sc ->
      scaler_transform sc X = Val Xs ->
      train_test_split Xs y = Val (Xtr, Xte, ytr, yte) ->
      lasso_fit Xtr ytr = Val model ->
      latest_window util (LAGS cfg) = Val w ->
      scaler_transform sc (row_frame w) = Raise e ->
      fit_run cfg util X y G
        (Raise e, G,
         [ev_scaler_fit X; ev_scaler_transform sc X; ev_lasso_fit Xtr ytr;
          ev_scaler_transform sc (row_frame w)])
  | run_predict_raises sc Xs Xtr Xte ytr yte model w x_last e :
      scaler_fit X = Val sc ->
      scaler_transform sc X = Val Xs ->
      train_test_split Xs y = Val (Xtr, Xte, ytr, yte) ->
      lasso_fit Xtr ytr = Val model ->
      latest_window util (LAGS cfg) = Val w ->
      scaler_transform sc (row_frame w) = Val x_last ->
      lasso_predict model x_last = Raise e ->
      fit_run cfg util X y G
        (Raise e, G,
         [ev_scaler_fit X; ev_scaler_transform sc X; ev_lasso_fit Xtr ytr;
          ev_scaler_transform sc (row_frame w); ev_lasso_predict model x_last])
  | run_item_raises sc Xs Xtr Xte ytr yte model w x_last pred e :
      scaler_fit X = Val sc ->
      scaler_transform sc X = Val Xs ->
      train_test_split Xs y = Val (Xtr, Xte, ytr, yte) ->
      lasso_fit Xtr ytr = Val model ->
      latest_window util (LAGS cfg) = Val w ->
      scaler_transform sc (row_frame w) = Val x_last ->
      lasso_predict model x_last = Val pred ->
      item0 pred = Raise e ->
      fit_run cfg util X y G
        (Raise e, G,
         [ev_scaler_fit X; ev_scaler_transform sc X; ev_lasso_fit Xtr ytr;
          ev_scaler_transform sc (row_frame w); ev_lasso_predict model x_last])
  | run_published sc Xs Xtr Xte ytr yte model w x_last pred yhat :
      scaler_fit X = Val sc ->
      scaler_transform sc X = Val Xs ->
      train_test_split Xs y = Val (Xtr, Xte, ytr, yte) ->
      lasso_fit Xtr ytr = Val model ->
      latest_window util (LAGS cfg) = Val w ->
      scaler_transform sc (row_frame w) = Val x_last ->
      lasso_predict model x_last = Val pred ->
      item0 pred = Val yhat ->
      fit_run cfg util X y G
        (Val tt, <[DEPLOY cfg := clamp yhat]> G,
         [ev_scaler_fit X; ev_scaler_transform sc X; ev_lasso_fit Xtr ytr;
          ev_scaler_transform sc (row_frame w); ev_lasso_predict model x_last;
          ev_gauge_set (DEPLOY cfg) (clamp yhat)]).

(** The runs of the [try] body, one rule per way it can end. *)
Inductive iteration_run (cfg : config) (range_answer : res range_json)
    (instant_answer : res instant_json) (G : gauge)
  : res flow * gauge * list event -> Prop :=
  | it_range_raises e :
      range_answer = Raise e ->
      iteration_run cfg range_answer instant_answer G (Raise e, G, [])
  | it_no_data jr :
      range_answer = Val jr ->
      flatten_points jr = [] ->
      iteration_run cfg range_answer instant_answer G
        (Val Continue, G, [ev_sleep (INTERVAL cfg)])
  | it_limit_raises jr e :
      range_answer = Val jr ->
      flatten_points jr <> [] ->
      instant_answer = Raise e ->
      iteration_run cfg range_answer instant_answer G (Raise e, G, [])
  | it_too_few jr jl :
      range_answer = Val jr ->
      flatten_points jr <> [] ->
      instant_answer = Val jl ->
      (length (fst (make_supervised (iteration_util jr jl) (LAGS cfg))) < 20)%nat ->
      iteration_run cfg range_answer instant_answer G
        (Val FallThrough, <[DEPLOY cfg := f0_0]> G,
         [ev_gauge_set (DEPLOY cfg) f0_0])
  | it_fit jr jl r G' evs :
      range_answer = Val jr ->
      flatten_points jr <> [] ->
      instant_answer = Val jl ->
      (20 <= length (fst (make_supervised (iteration_util jr jl) (LAGS cfg))))%nat ->
      fit_run cfg (iteration_util jr jl)
        (fst (make_supervised (iteration_util jr jl) (LAGS cfg)))
        (snd (make_supervised (iteration_util jr jl) (LAGS cfg)))
        G (r, G', evs) ->
      iteration_run cfg range_answer instant_answer G
        (match r with Val _ => Val FallThrough | Raise e => Raise e end,
         G', evs).

(** One turn of [while True]: the [try] body, the [except] clause and the
    closing sleep, which [continue] skips. *)
Definition loop_step (cfg : config)
    (range_answer : res range_json) (instant_answer : res instant_json)
    (G : gauge) : gauge * list event :=
  match iteration cfg range_answer instant_answer G with
  | (Val Continue, G', evs) => (G', evs)
  | (Val FallThrough, G', evs) => (G', evs ++ [ev_sleep (INTERVAL cfg)])
  | (Raise e, G', evs) => (G', evs ++ [ev_log_error e; ev_sleep (INTERVAL cfg)])
  end.

(** The first turns of the loop, one pair of answers per turn. *)
Fixpoint loop (cfg : config)
    (answers : list (res range_json * res instant_json)) (G : gauge)
  : gauge * list event :=
  match answers with
  | [] => (G, [])
  | (jr, jl) :: rest =>
      let '(G1, evs1) := loop_step cfg jr jl G in
      let '(G2, evs2) := loop cfg rest G1 in
      (G2, evs1 ++ evs2)
  end.

End Loop.

(** ** Reference estimators and concrete inputs

    The theorems below hold for every scaler and every regressor.  To run
    the loop on concrete data, this section gives a scaler that follows the
    documented formula [z = (x - u) / s] (population standard deviation, a
    zero deviation scaled by 1) and two simple regressors.  They are
    instances to run the examples with, not a model of scikit-learn: on a
    column that is constant up to rounding, or on values that are not
    finite (which scikit-learn refuses), the statistics need not be those
    of [StandardScaler]. *)

Definition column (X : matrix) (j : nat) : list float :=
  map (fun row => nth j row nan) X.

Definition column_mean (c : list float) : float :=
  div (fold_left add c f0_0) (of_Z (Z.of_nat (length c))).

Definition column_scale (c : list float) : float :=
  let u := column_mean c in
  let var := column_mean (map (fun v => mul (sub v u) (sub v u)) c) in
  let s := sqrt var in
  if SFeqb s f0_0 then of_Z 1 else s.

Record scaler_stats : Type := { mean_ : list float; scale_ : list float }.

Definition reference_fit (X : matrix) : res scaler_stats :=
  match X with
  | [] => Raise ValueError
  | [] :: _ => Raise ValueError
  | row :: _ =>
      let cols := map (column X) (seq 0 (length row)) in
      Val {| mean_ := map column_mean cols; scale_ := map column_scale cols |}
  end.

Fixpoint standardize_row (row us ss : list float) : list float :=
  match row, us, ss with
  | v :: row', u :: us', s :: ss' => div (sub v u) s :: standardize_row row' us' ss'
  | _, _, _ => []
  end.

Definition reference_transform (sc : scaler_stats) (X : matrix) : res matrix :=
  match X with
  | [] => Raise ValueError
  | _ =>
      if forallb (fun row => (length row =? length (mean_ sc))%nat) X
      then Val (map (fun row => standardize_row row (mean_ sc) (scale_ sc)) X)
      else Raise ValueError
  end.

Definition reference_scaler : StandardScaler :=
  {| scaler := scaler_stats;
     scaler_fit := reference_fit;
     scaler_transform := reference_transform |}.

(** A regressor that has learnt the intercept only: the mean target. *)
Definition intercept_model : Lasso :=
  {| lasso := float;
     lasso_fit := fun _ ytr => Val (column_mean ytr);
     lasso_predict := fun b x => Val (map (fun _ => b) x) |}.

(** A regressor whose prediction is fixed in advance. *)
Definition constant_model (v : float) : Lasso :=
  {| lasso := unit;
     lasso_fit := fun _ _ => Val tt;
     lasso_predict := fun _ x => Val (map (fun _ => v) x) |}.

Definition demo_config : config :=
  {| NAMESPACE := "demo"; DEPLOY := "cpu-demo"; LAGS := 2; INTERVAL := 60 |}.

Definition demo_usage : range_json := [[(1700000000, of_Z 1); (1700000060, of_Z 2); (1700000120, of_Z 3)]].

Definition demo_limit : instant_json := [of_Z 4].

Definition f0_5 : float := Eval vm_compute in div (of_Z 1) (of_Z 2).

Definition demo_series : list float := map of_Z [10; 11; 12; 13; 14].

(** [n] samples [t0, t0 + step, ...] whose values count up from [v0]. *)
Fixpoint ramp (n : nat) (t0 step v0 : Z) : list point :=
  match n with
  | O => []
  | S n' => (t0, of_Z v0) :: ramp n' (t0 + step) step (v0 + 1)
  end.

(** Two samples a minute apart, as a range query with a 60 s step gives. *)
Definition minute_series : list point := [(0, of_Z 1); (60, of_Z 2)].

(** Two samples written for the same timestamp. *)
Definition duplicate_points : list point := [(0, of_Z 1); (0, of_Z 3)].

(** 0.1, 0.2 and 0.3 stamped inside one 5-second bin. *)
Definition f0_2 : float := Eval vm_compute in div (of_Z 2) (of_Z 10).

Definition f0_3 : float := Eval vm_compute in div (of_Z 3) (of_Z 10).

Definition three_in_a_bin : list point := [(2, f0_3); (0, f0_1); (1, f0_2)].

(** Five samples on the 5-second cadence. *)
Definition fine_series : list point := ramp 5 1700000000 5 1.



Definition short_usage : range_json := [[(1700000000, of_Z 1); (1700000005, of_Z 2)]].

Definition default_lags_config : config :=
  {| NAMESPACE := "demo"; DEPLOY := "cpu-demo"; LAGS := 60; INTERVAL := 60 |}.

(** One iteration on the demo answers, from an empty gauge. *)
Definition demo_run (LM : Lasso) :=
  @iteration reference_scaler LM demo_config (Val demo_usage) (Val demo_limit) ∅.

(** ** The transport helpers and the decoding of their answers

    [prom_query] and [prom_range] differ in the endpoint, the parameters
    and the timeout, none of which the model observes: both send a GET
    request, raise on an error status and decode the body. *)

(** What [requests.get] returns: the status code, and the body as
    [r.json()] reads it ([None]: the body is not JSON). *)
Record http_response (J : Type) : Type := {
  status_code : Z;
  json_body : option J
}.
Arguments status_code {J} _.
Arguments json_body {J} _.

(** [r.raise_for_status()]: the 4xx and 5xx codes raise. *)
Definition raise_for_status {J} (r : http_response J) : res unit :=
  if (400 <=? status_code r) && (status_code r <? 600)
  then Raise RequestException
  else Val tt.

(** The body of both helpers, given what [requests.get] does: it raises
    (timeout, connection error) or returns a response. *)
Definition checked_json {J} (reply : res (http_response J)) : res J :=
  match reply with
  | Raise e => Raise e
  | Val r =>
      match raise_for_status r with
      | Raise e => Raise e
      | Val _ =>
          match json_body r with
          | Some j => Val j
          | None => Raise ValueError
          end
      end
  end.

(** A range sample [[ts, "value"]]: the timestamp, and what [float(v[1])]
    makes of the value string (it raises on a string that is no number). *)
Record sample_json : Type := {
  sample_ts : Z;
  sample_value : res float
}.

(** The decoded range document; every key the loop reads with [.get] may
    be absent. *)
Record series_json : Type := { values_key : option (list sample_json) }.
Record range_data : Type := { range_result_key : option (list series_json) }.
Record range_doc : Type := { range_data_key : option range_data }.

(** The decoded instant document; the loop indexes its keys directly.
    [value_key] is what [float(...["value"][1])] makes of the sample. *)
Record instant_sample : Type := { value_key : option (res float) }.
Record instant_data : Type := { instant_result_key : option (list instant_sample) }.
Record instant_doc : Type := { instant_data_key : option instant_data }.

Definition prom_range (reply : res (http_response range_doc)) : res range_doc :=
  checked_json reply.

Definition prom_query (reply : res (http_response instant_doc)) : res instant_doc :=
  checked_json reply.

(** [(float(v[0]), float(v[1]))] for the samples of one series, left to
    right: the first conversion that raises ends the comprehension. *)
Fixpoint read_samples (vs : list sample_json) : res (list point) :=
  match vs with
  | [] => Val []
  | v :: rest =>
      match sample_value v with
      | Raise e => Raise e
      | Val f =>
          match read_samples rest with
          | Raise e => Raise e
          | Val ps => Val ((sample_ts v, f) :: ps)
          end
      end
  end.

Fixpoint read_series (rs : list series_json) : res range_json :=
  match rs with
  | [] => Val []
  | r :: rest =>
      match read_samples (default [] (values_key r)) with
      | Raise e => Raise e
      | Val ps =>
          match read_series rest with
          | Raise e => Raise e
          | Val pss => Val (ps :: pss)
          end
      end
  end.

(** Lines 144-148: [jr.get("data", {}).get("result", [])] and the nested
    comprehension over [r.get("values", [])]. *)
Definition usage_result (jr : range_doc) : res range_json :=
  let data := default {| range_result_key := None |} (range_data_key jr) in
  let result := default [] (range_result_key data) in
  read_series result.

(** Lines 173-174: [jl["data"]["result"]], tested for emptiness, then
    [float(jl["data"]["result"][0]["value"][1])]. *)
Definition limit_result (jl : instant_doc) : res instant_json :=
  match instant_data_key jl with
  | None => Raise KeyError
  | Some data =>
      match instant_result_key data with
      | None => Raise KeyError
      | Some [] => Val []
      | Some (first :: _) =>
          match value_key first with
          | None => Raise KeyError
          | Some (Raise e) => Raise e
          | Some (Val f) => Val [f]
          end
      end
  end.

Definition then_decode {J A} (r : res J) (decode : J -> res A) : res A :=
  match r with
  | Raise e => Raise e
  | Val j => decode j
  end.

(** ** Reading a run of the loop *)

(** Replaying gauge writes in order. *)
Definition replay (writes : list (string * float)) (G : gauge) : gauge :=
  fold_left (fun g w => <[fst w := snd w]> g) writes G.

(** A value of the forecast range: [0.0 <= v <= 2.0], which no NaN
    satisfies. *)
Definition in_forecast_range (v : float) : Prop :=
  leb f0_0 v = true /\ leb v f2_0 = true.

(** The series has all of [ts[r - L], ..., ts[r]]. *)
Definition window_present (ts : list float) (L r : nat) : bool :=
  forallb (fun j => notnan (nth (r - j) ts nan)) (seq 0 (S L)).

(** The point [p], [c] slots of 5 seconds later. *)
Definition later (c : Z) (p : point) : point := (fst p + 5 * c, snd p).

(** The number of 5-second slots between the bins of two timestamps. *)
Definition slots_between (t_first t_last : Z) : nat :=
  Z.to_nat (bucket t_last - bucket t_first + 1).

(** The intervals [time.sleep] accepts: a negative argument raises
    ValueError, and one beyond the range of the nanosecond clock (2^63 ns)
    raises OverflowError. *)
Definition sleep_accepts (secs : Z) : Prop := 0 <= secs <= 9223372036.

Section Turn.

Context `{SS : StandardScaler} `{LM : Lasso}.

Definition sleeps (evs : list event) : list Z :=
  flat_map (fun ev => match ev with ev_sleep secs => [secs] | _ => [] end) evs.

Definition logged_errors (evs : list event) : list exn :=
  flat_map (fun ev => match ev with ev_log_error e => [e] | _ => [] end) evs.

(** One turn of the loop, from what the two HTTP requests do. *)
Definition turn (cfg : config)
    (usage_reply : res (http_response range_doc))
    (limit_reply : res (http_response instant_doc))
    (G : gauge) : gauge * list event :=
  loop_step cfg
    (then_decode (prom_range usage_reply) usage_result)
    (then_decode (prom_query limit_reply) limit_result) G.

End Turn.

(** Concrete replies. *)
Definition ok_usage_reply : res (http_response range_doc) :=
  Val {| status_code := 200;
         json_body := Some {| range_data_key := Some {| range_result_key := Some
           [ {| values_key := Some
                  [ {| sample_ts := 1700000000; sample_value := Val (of_Z 1) |};
                    {| sample_ts := 1700000060; sample_value := Val (of_Z 2) |};
                    {| sample_ts := 1700000120; sample_value := Val (of_Z 3) |} ] |} ] |} |} |}.

Definition ok_limit_reply : res (http_response instant_doc) :=
  Val {| status_code := 200;
         json_body := Some {| instant_data_key := Some {| instant_result_key := Some
           [ {| value_key := Some (Val (of_Z 4)) |} ] |} |} |}.

Definition bare_usage_reply : res (http_response range_doc) :=
  Val {| status_code := 200; json_body := Some {| range_data_key := None |} |}.

Definition bare_limit_reply : res (http_response instant_doc) :=
  Val {| status_code := 200; json_body := Some {| instant_data_key := None |} |}.

Definition unavailable {J} : res (http_response J) :=
  Val {| status_code := 503; json_body := None |}.

(** A usage answer whose second value is no number. *)
Definition garbled_sample : sample_json :=
  {| sample_ts := 1700000060; sample_value := Raise ValueError |}.

Definition garbled_series : series_json :=
  {| values_key := Some
       [ {| sample_ts := 1700000000; sample_value := Val (of_Z 1) |};
         garbled_sample;
         {| sample_ts := 1700000120; sample_value := Val (of_Z 3) |} ] |}.

Definition garbled_usage_doc : range_doc :=
  {| range_data_key := Some {| range_result_key := Some [garbled_series] |} |}.

(** A series with a gap. *)
Definition gappy_series : list float :=
  [of_Z 1; of_Z 2; nan; of_Z 4; of_Z 5; of_Z 6; of_Z 7].

(** Eight samples a minute apart, on a 5-second boundary. *)
Definition eight_minutes : list point := ramp 8 1700000000 60 1.

(** * Properties *)

(** ** The feature builder *)

Lemma lookup_map {A B} (f : A -> B) (l : list A) (i : nat) :
  map f l !! i = f <$> (l !! i).
Proof. exact (list_lookup_fmap f l i). Qed.

Lemma shift_length i ts : length (shift i ts) = length ts.
Proof.
  unfold shift. rewrite length_app, length_replicate, length_take. lia.
Qed.

Lemma shift_lookup_lt i ts r :
  (r < i)%nat -> (r < length ts)%nat -> shift i ts !! r = Some nan.
Proof.
  intros Hri Hr. unfold shift.
  rewrite lookup_app_l by (rewrite length_replicate; lia).
  apply lookup_replicate_2. lia.
Qed.

Lemma shift_lookup_ge i ts r :
  (i <= r)%nat -> (r < length ts)%nat -> shift i ts !! r = ts !! (r - i)%nat.
Proof.
  intros Hir Hr. unfold shift.
  rewrite lookup_app_r by (rewrite length_replicate; lia).
  rewrite length_replicate.
  replace (Nat.min i (length ts)) with i by lia.
  apply lookup_take_lt. lia.
Qed.

Lemma frame_row_length cols r : length (frame_row cols r) = length cols.
Proof. unfold frame_row. apply length_map. Qed.

Lemma lag_row_lookup ts L r j :
  (j < L)%nat -> (L <= r)%nat -> (r < length ts)%nat ->
  frame_row (lag_columns ts L) r !! j = ts !! (r - 1 - j)%nat.
Proof.
  intros Hj HL Hr. unfold frame_row, lag_columns.
  rewrite !lookup_map, lookup_seq_lt by done. simpl.
  rewrite nth_lookup, shift_lookup_ge by lia.
  replace (r - S j)%nat with (r - 1 - j)%nat by lia.
  destruct (ts !! (r - 1 - j)%nat) as [v|] eqn:E; [done|].
  apply lookup_ge_None in E. lia.
Qed.

(** An index below the lag count has a missing cell: [dropna] removes it. *)
Lemma row_below_lag_incomplete ts L r :
  (r < L)%nat -> (r < length ts)%nat ->
  row_complete (frame_row (lag_columns ts L) r, nth r ts nan) = false.
Proof.
  intros HrL Hr. unfold row_complete. simpl.
  apply andb_false_iff. left.
  apply not_true_is_false. intros Hall.
  rewrite forallb_forall in Hall.
  assert (Hin : In nan (frame_row (lag_columns ts L) r)).
  { apply list_elem_of_In, list_elem_of_lookup. exists r.
    unfold frame_row, lag_columns.
    rewrite !lookup_map, lookup_seq_lt by done. simpl.
    rewrite nth_lookup, shift_lookup_lt by lia. done. }
  apply Hall in Hin. discriminate.
Qed.

(** From the lag count on, a dense series gives complete rows. *)
Lemma row_from_lag_complete ts L r :
  dense ts -> (L <= r)%nat -> (r < length ts)%nat ->
  row_complete (frame_row (lag_columns ts L) r, nth r ts nan) = true.
Proof.
  intros Hd HL Hr. unfold dense in Hd. rewrite Forall_lookup in Hd.
  assert (Hcell : forall k v, ts !! k = Some v -> notnan v = true).
  { intros k v Hk. unfold notnan. by rewrite (Hd k v Hk). }
  unfold row_complete. simpl. apply andb_true_iff. split.
  - apply forallb_forall. intros v Hv.
    apply list_elem_of_In, list_elem_of_lookup in Hv as [j Hj].
    assert (Hlt : (j < L)%nat).
    { apply lookup_lt_Some in Hj.
      rewrite frame_row_length in Hj. unfold lag_columns in Hj.
      by rewrite length_map, length_seq in Hj. }
    rewrite lag_row_lookup in Hj by done. eauto.
  - destruct (ts !! r) as [v|] eqn:E.
    + rewrite (nth_lookup_Some _ _ _ _ E). eauto.
    + apply lookup_ge_None in E. lia.
Qed.

Lemma filter_all_false {A} (f : A -> bool) l :
  (forall x, In x l -> f x = false) -> List.filter f l = [].
Proof.
  induction l as [|a l IH]; intros H; simpl; [done|].
  rewrite (H a) by (by left). apply IH. intros x Hx. apply H. by right.
Qed.

Lemma filter_all_true {A} (f : A -> bool) l :
  (forall x, In x l -> f x = true) -> List.filter f l = l.
Proof.
  induction l as [|a l IH]; intros H; simpl; [done|].
  rewrite (H a) by (by left). f_equal. apply IH. intros x Hx. apply H. by right.
Qed.

Lemma dropna_below_lag ts L n :
  (n <= L)%nat -> (n <= length ts)%nat ->
  List.filter row_complete (frame_rows ts L (seq 0 n)) = [].
Proof.
  intros HnL Hn. apply filter_all_false. intros x Hx.
  unfold frame_rows in Hx. apply in_map_iff in Hx as [r [<- Hr]].
  apply in_seq in Hr. apply row_below_lag_incomplete; lia.
Qed.

Lemma dropna_from_lag ts L :
  dense ts -> (L <= length ts)%nat ->
  List.filter row_complete (frame_rows ts L (seq L (length ts - L)))
  = frame_rows ts L (seq L (length ts - L)).
Proof.
  intros Hd HL. apply filter_all_true. intros x Hx.
  unfold frame_rows in Hx. apply in_map_iff in Hx as [r [<- Hr]].
  apply in_seq in Hr. apply row_from_lag_complete; [done|lia|lia].
Qed.

Lemma make_supervised_rows ts L :
  make_supervised ts L
  = (map fst (List.filter row_complete (frame_rows ts L (seq 0 (length ts)))),
     map snd (List.filter row_complete (frame_rows ts L (seq 0 (length ts))))).
Proof. reflexivity. Qed.

Lemma frame_rows_app ts L rs1 rs2 :
  frame_rows ts L (rs1 ++ rs2) = frame_rows ts L rs1 ++ frame_rows ts L rs2.
Proof. unfold frame_rows. apply map_app. Qed.

Lemma seq_split_at (L n : nat) :
  (L <= n)%nat -> seq 0 n = seq 0 L ++ seq L (n - L).
Proof.
  intros H. replace n with (L + (n - L))%nat at 1 by lia.
  by rewrite seq_app.
Qed.

Lemma dropna_dense ts L :
  dense ts -> (L <= length ts)%nat ->
  List.filter row_complete (frame_rows ts L (seq 0 (length ts)))
  = frame_rows ts L (seq L (length ts - L)).
Proof.
  intros Hd HL.
  rewrite (seq_split_at L (length ts) HL), frame_rows_app, List.filter_app.
  rewrite dropna_below_lag by lia.
  by rewrite dropna_from_lag.
Qed.

Lemma make_supervised_dense ts L :
  dense ts -> (L <= length ts)%nat ->
  make_supervised ts L
  = (map fst (frame_rows ts L (seq L (length ts - L))),
     map snd (frame_rows ts L (seq L (length ts - L)))).
Proof.
  intros Hd HL. rewrite make_supervised_rows. by rewrite dropna_dense.
Qed.

(** The dataset never has more rows than the series has indices from the
    lag count on. *)
Lemma make_supervised_length_le ts L :
  (length (fst (make_supervised ts L)) <= length ts - L)%nat.
Proof.
  rewrite make_supervised_rows. simpl. rewrite length_map.
  destruct (decide (L <= length ts)%nat) as [HL|HL].
  - rewrite (seq_split_at L (length ts) HL), frame_rows_app, List.filter_app.
    rewrite dropna_below_lag by lia. simpl.
    pose proof (List.filter_length_le row_complete
                  (frame_rows ts L (seq L (length ts - L)))) as Hle.
    unfold frame_rows in Hle at 2. rewrite length_map, length_seq in Hle. lia.
  - rewrite dropna_below_lag by lia. simpl. lia.
Qed.

Lemma make_supervised_same_length ts L :
  length (fst (make_supervised ts L)) = length (snd (make_supervised ts L)).
Proof. rewrite make_supervised_rows. simpl. by rewrite !length_map. Qed.

(** C2.  For a dense series of length N and a lag count L < N,
    [make_supervised] yields exactly N - L rows; the target of row i is
    [series[i + L]] and its feature j (column [lag_(j+1)]) is
    [series[i + L - 1 - j]], for every j below L. *)
Theorem make_supervised_aligned (series : list float) (L : nat) :
  dense series -> (L < length series)%nat ->
  let X := fst (make_supervised series L) in
  let y := snd (make_supervised series L) in
  length X = (length series - L)%nat /\
  length y = (length series - L)%nat /\
  forall i, (i < length series - L)%nat ->
    y !! i = series !! (i + L)%nat /\
    exists row, X !! i = Some row /\ length row = L /\
      forall j, (j < L)%nat -> row !! j = series !! (i + L - 1 - j)%nat.
Proof.
  intros Hd HL X y. subst X y.
  rewrite make_supervised_dense by (done || lia). simpl.
  unfold frame_rows. rewrite !length_map, length_seq.
  split; [done|]. split; [done|].
  intros i Hi. rewrite !map_map. simpl. split.
  - rewrite lookup_map, lookup_seq_lt by done. simpl.
    rewrite nth_lookup.
    destruct (series !! (L + i)%nat) as [v|] eqn:E.
    + by replace (i + L)%nat with (L + i)%nat by lia.
    + apply lookup_ge_None in E. lia.
  - exists (frame_row (lag_columns series L) (L + i)).
    rewrite lookup_map, lookup_seq_lt by done. simpl.
    split; [done|]. split.
    + rewrite frame_row_length. unfold lag_columns.
      by rewrite length_map, length_seq.
    + intros j Hj. rewrite lag_row_lookup by lia.
      f_equal. lia.
Qed.

Lemma make_supervised_aligned_witness :
  dense demo_series /\ (2 < length demo_series)%nat /\
  length (fst (make_supervised demo_series 2)) = (length demo_series - 2)%nat /\
  length (snd (make_supervised demo_series 2)) = (length demo_series - 2)%nat /\
  forall i, (i < length demo_series - 2)%nat ->
    snd (make_supervised demo_series 2) !! i = demo_series !! (i + 2)%nat /\
    exists row, fst (make_supervised demo_series 2) !! i = Some row /\
      length row = 2%nat /\
      forall j, (j < 2)%nat -> row !! j = demo_series !! (i + 2 - 1 - j)%nat.
Proof.
  assert (Hd : dense demo_series) by (unfold dense; repeat constructor).
  assert (Hl : (2 < length demo_series)%nat) by (simpl; lia).
  split; [exact Hd|]. split; [exact Hl|].
  exact (make_supervised_aligned demo_series 2 Hd Hl).
Defined.

(** ** The latest lag window *)

Lemma collect_vals {A} (f : A -> res float) (g : A -> float) (l : list A) :
  (forall i, In i l -> f i = Val (g i)) ->
  collect (map f l) = Val (map g l).
Proof.
  induction l as [|a l IH]; intros H; simpl; [done|].
  rewrite (H a) by (by left).
  rewrite IH; [done|]. intros i Hi. apply H. by right.
Qed.

Lemma iloc_neg_in_range util i :
  (1 <= i)%nat -> (i <= length util)%nat ->
  iloc_neg util i = Val (nth (length util - i) util nan).
Proof.
  intros H1 Hi. unfold iloc_neg.
  destruct (Nat.leb_spec i (length util)); [|lia].
  destruct (util !! (length util - i)%nat) as [v|] eqn:E.
  - by rewrite (nth_lookup_Some _ _ _ _ E).
  - apply lookup_ge_None in E. lia.
Qed.

Lemma latest_window_in_range util L :
  (L <= length util)%nat ->
  latest_window util L
  = Val (map (fun i => nth (length util - i) util nan) (seq 1 L)).
Proof.
  intros HL. unfold latest_window. apply collect_vals.
  intros i Hi. apply in_seq in Hi. apply iloc_neg_in_range; lia.
Qed.

(** C10.  For a series with at least L values, the raw prediction row has
    L columns, column j holds the value j + 1 positions from the end, and
    the row is, cell for cell, the feature row [make_supervised] builds
    for the next index: the row at index [length util] of the lag frame of
    the series extended by one value, which is the last row emitted when
    that extended series is dense. *)
Theorem latest_window_is_next_feature_row (util : list float) (L : nat) :
  (L <= length util)%nat ->
  exists w, latest_window util L = Val w /\ length w = L /\
    (forall j, (j < L)%nat -> w !! j = util !! (length util - 1 - j)%nat) /\
    (forall v, frame_row (lag_columns (util ++ [v]) L) (length util) = w) /\
    (forall v, dense (util ++ [v]) ->
       last (fst (make_supervised (util ++ [v]) L)) = Some w).
Proof.
  intros HL. set (n := length util).
  assert (Hrow : forall v,
    frame_row (lag_columns (util ++ [v]) L) n
    = map (fun i => nth (n - i) util nan) (seq 1 L)).
  { intros v. unfold frame_row, lag_columns. rewrite map_map.
    apply map_ext_in. intros i Hi. apply in_seq in Hi.
    rewrite !nth_lookup. f_equal.
    rewrite shift_lookup_ge by (rewrite ?length_app; simpl; unfold n in *; lia).
    apply lookup_app_l. unfold n. lia. }
  exists (map (fun i => nth (n - i) util nan) (seq 1 L)).
  split; [by apply latest_window_in_range|].
  split; [by rewrite length_map, length_seq|].
  split; [|split].
  - intros j Hj. rewrite lookup_map, lookup_seq_lt by done. simpl.
    rewrite nth_lookup.
    replace (n - S j)%nat with (n - 1 - j)%nat by lia.
    destruct (util !! (n - 1 - j)%nat) as [v|] eqn:E; [done|].
    apply lookup_ge_None in E. unfold n in *. lia.
  - exact Hrow.
  - intros v Hd.
    rewrite make_supervised_dense by (done || (rewrite length_app; simpl; lia)).
    simpl. rewrite last_lookup. unfold frame_rows.
    rewrite !length_map, length_seq, map_map, lookup_map.
    rewrite length_app. simpl. fold n.
    rewrite lookup_seq_lt by lia. simpl.
    f_equal. rewrite <- (Hrow v). f_equal. lia.
Qed.

Lemma latest_window_is_next_feature_row_witness :
  (3 <= length demo_series)%nat /\
  exists w, latest_window demo_series 3 = Val w /\ length w = 3%nat /\
    (forall j, (j < 3)%nat ->
       w !! j = demo_series !! (length demo_series - 1 - j)%nat) /\
    (forall v, frame_row (lag_columns (demo_series ++ [v]) 3) (length demo_series) = w) /\
    (forall v, dense (demo_series ++ [v]) ->
       last (fst (make_supervised (demo_series ++ [v]) 3)) = Some w).
Proof.
  assert (Hl : (3 <= length demo_series)%nat) by (simpl; lia).
  split; [exact Hl|].
  exact (latest_window_is_next_feature_row demo_series 3 Hl).
Defined.

(** ** The loop *)

Section LoopFacts.

Context `{SS : StandardScaler} `{LM : Lasso}.

Ltac unfold_monad :=
  unfold call_scaler_fit, call_scaler_transform, call_lasso_fit,
    call_lasso_predict, gauge_set, sleep, emit, lift, ret, bind in *.

Lemma iteration_with_points cfg jr jl G :
  flatten_points jr <> [] ->
  iteration cfg (Val jr) (Val jl) G
  = bind (forecast cfg (iteration_util jr jl)) (fun _ => ret FallThrough) G.
Proof.
  intros Hp. unfold iteration, iteration_util.
  unfold lift, bind. cbn beta iota.
  destruct (flatten_points jr) as [|p ps]; [done|].
  destruct (forecast cfg _ G) as [[[u|e] G1] evs]; simpl; reflexivity.
Qed.

Lemma forecast_too_few cfg util G :
  (length (fst (make_supervised util (LAGS cfg))) < 20)%nat ->
  forecast cfg util G
  = (Val tt, <[DEPLOY cfg := f0_0]> G, [ev_gauge_set (DEPLOY cfg) f0_0]).
Proof.
  intros Hlt. unfold forecast.
  destruct (make_supervised util (LAGS cfg)) as [X y]. simpl in Hlt.
  destruct (Nat.ltb_spec (length X) 20); [done|lia].
Qed.

Lemma fit_and_publish_run cfg util X y G :
  fit_run cfg util X y G (fit_and_publish cfg util X y G).
Proof.
  unfold fit_and_publish. unfold_monad. simpl.
  destruct (scaler_fit X) as [sc|e] eqn:E1; simpl;
    [|by eapply run_scaler_fit_raises].
  destruct (scaler_transform sc X) as [Xs|e] eqn:E2; simpl;
    [|by eapply run_transform_raises].
  destruct (train_test_split Xs y) as [[[[Xtr Xte] ytr] yte]|e] eqn:E3; simpl;
    [|by eapply run_split_raises].
  destruct (lasso_fit Xtr ytr) as [model|e] eqn:E4; simpl;
    [|by eapply run_lasso_fit_raises].
  destruct (latest_window util (LAGS cfg)) as [w|e] eqn:E5; simpl;
    [|by eapply run_window_raises].
  destruct (scaler_transform sc (row_frame w)) as [x_last|e] eqn:E6; simpl;
    [|by eapply run_transform_window_raises].
  destruct (lasso_predict model x_last) as [pred|e] eqn:E7; simpl;
    [|by eapply run_predict_raises].
  destruct (item0 pred) as [yhat|e] eqn:E8; simpl;
    [by eapply run_published|by eapply run_item_raises].
Qed.

Lemma forecast_enough cfg util G :
  (20 <= length (fst (make_supervised util (LAGS cfg))))%nat ->
  forecast cfg util G
  = fit_and_publish cfg util (fst (make_supervised util (LAGS cfg)))
      (snd (make_supervised util (LAGS cfg))) G.
Proof.
  intros Hge. unfold forecast.
  destruct (make_supervised util (LAGS cfg)) as [X y]. simpl in *.
  destruct (Nat.ltb_spec (length X) 20); [lia|done].
Qed.

Lemma iteration_is_run cfg range_answer instant_answer G :
  iteration_run cfg range_answer instant_answer G
    (iteration cfg range_answer instant_answer G).
Proof.
  destruct range_answer as [jr|e].
  2:{ unfold iteration. unfold_monad. simpl. by apply it_range_raises. }
  destruct (flatten_points jr) as [|p ps] eqn:Hp.
  { unfold iteration. unfold_monad. simpl. rewrite Hp.
    by eapply it_no_data. }
  assert (Hne : flatten_points jr <> []) by (by rewrite Hp).
  destruct instant_answer as [jl|e].
  2:{ unfold iteration. unfold_monad. simpl. rewrite Hp.
      by eapply it_limit_raises. }
  rewrite (iteration_with_points cfg jr jl G Hne). unfold bind.
  destruct (decide (length (fst (make_supervised (iteration_util jr jl) (LAGS cfg))) < 20)%nat)
    as [Hlt|Hge].
  - rewrite (forecast_too_few _ _ _ Hlt). simpl.
    by eapply it_too_few.
  - rewrite forecast_enough by lia.
    pose proof (fit_and_publish_run cfg (iteration_util jr jl)
                  (fst (make_supervised (iteration_util jr jl) (LAGS cfg)))
                  (snd (make_supervised (iteration_util jr jl) (LAGS cfg))) G) as Hrun.
    destruct (fit_and_publish cfg _ _ _ G) as [[r G'] evs].
    destruct r as [u|e]; simpl; rewrite ?app_nil_r.
    + by eapply (it_fit _ _ _ _ jr jl (Val u)); [..|lia|].
    + by eapply (it_fit _ _ _ _ jr jl (Raise e)); [..|lia|].
Qed.

(** C4.  When the usage range query answers with no point at all, the
    iteration writes nothing to the gauge: the turn only sleeps, every
    label keeps the value it had, and the metrics listing is the same. *)
Theorem empty_usage_publishes_nothing cfg (jr : range_json)
    (instant_answer : res instant_json) (G : gauge) :
  flatten_points jr = [] ->
  iteration cfg (Val jr) instant_answer G
    = (Val Continue, G, [ev_sleep (INTERVAL cfg)]) /\
  loop_step cfg (Val jr) instant_answer G = (G, [ev_sleep (INTERVAL cfg)]) /\
  published (snd (loop_step cfg (Val jr) instant_answer G)) = [] /\
  (forall label, fst (loop_step cfg (Val jr) instant_answer G) !! label = G !! label) /\
  metrics (fst (loop_step cfg (Val jr) instant_answer G)) = metrics G.
Proof.
  intros Hp.
  assert (Hit : iteration cfg (Val jr) instant_answer G
                = (Val Continue, G, [ev_sleep (INTERVAL cfg)])).
  { unfold iteration. unfold_monad. simpl. by rewrite Hp. }
  assert (Hstep : loop_step cfg (Val jr) instant_answer G
                  = (G, [ev_sleep (INTERVAL cfg)])).
  { unfold loop_step. by rewrite Hit. }
  rewrite Hstep. simpl. done.
Qed.

(** C3.  When the supervised dataset has fewer than 20 rows, and in
    particular when the lag count exceeds the length of the series, the
    iteration calls neither the scaler nor the regressor: its only effect
    is to set the gauge of the deployment to 0.0. *)
Theorem too_few_rows_publishes_zero cfg (jr : range_json) (jl : instant_json)
    (G : gauge) :
  flatten_points jr <> [] ->
  (length (fst (make_supervised (iteration_util jr jl) (LAGS cfg))) < 20)%nat
    \/ (length (iteration_util jr jl) < LAGS cfg)%nat ->
  let '(r, G', evs) := iteration cfg (Val jr) (Val jl) G in
  r = Val FallThrough /\
  evs = [ev_gauge_set (DEPLOY cfg) f0_0] /\
  lasso_fit_calls evs = [] /\
  scaler_fit_inputs evs = [] /\
  G' !! DEPLOY cfg = Some f0_0.
Proof.
  intros Hp Hfew.
  assert (Hlt : (length (fst (make_supervised (iteration_util jr jl) (LAGS cfg))) < 20)%nat).
  { destruct Hfew as [H|H]; [done|].
    pose proof (make_supervised_length_le (iteration_util jr jl) (LAGS cfg)). lia. }
  rewrite (iteration_with_points cfg jr jl G Hp).
  unfold bind. rewrite (forecast_too_few _ _ _ Hlt). simpl.
  repeat split. apply lookup_insert_eq.
Qed.

Lemma effective_limit_fallback (jl : instant_json) :
  jl = [] \/ (exists v rest, jl = v :: rest /\ leb v f0_0 = true) ->
  effective_limit jl = f0_1.
Proof.
  intros [->|(v & rest & -> & Hv)]; unfold effective_limit.
  - reflexivity.
  - by rewrite Hv.
Qed.

(** The divisor is never a value that compares at or below zero. *)
Lemma effective_limit_not_le_zero (jl : instant_json) :
  leb (effective_limit jl) f0_0 = false.
Proof.
  unfold effective_limit.
  destruct (leb (match jl with [] => f0_1 | v :: _ => v end) f0_0) eqn:E;
    [reflexivity|exact E].
Qed.

(** C5.  When the limit query answers 0, a negative value or nothing, the
    divisor of the utilisation series is the fallback 0.1, a positive
    value and not the raw answer: the utilisation series is the normalised
    usage series with every value divided by 0.1, slot by slot, and the
    iteration goes on to the forecasting stage with that series: the limit
    and the division raise nothing. *)
Theorem nonpositive_limit_uses_fallback cfg (jr : range_json)
    (jl : instant_json) (G : gauge) :
  flatten_points jr <> [] ->
  jl = [] \/ (exists v rest, jl = v :: rest /\ leb v f0_0 = true) ->
  effective_limit jl = f0_1 /\
  ltb f0_0 f0_1 = true /\
  (forall v rest, jl = v :: rest -> effective_limit jl <> v) /\
  iteration_util jr jl
  = map (fun p => div (snd p) f0_1) (normalize (flatten_points jr)) /\
  length (iteration_util jr jl) = length (normalize (flatten_points jr)) /\
  (forall i t v, normalize (flatten_points jr) !! i = Some (t, v) ->
     iteration_util jr jl !! i = Some (div v f0_1)) /\
  iteration cfg (Val jr) (Val jl) G
  = bind (forecast cfg (map (fun p => div (snd p) f0_1)
                            (normalize (flatten_points jr))))
         (fun _ => ret FallThrough) G.
Proof.
  intros Hp Hjl.
  pose proof (effective_limit_fallback jl Hjl) as Hlim.
  assert (Hutil : iteration_util jr jl
                  = map (fun p => div (snd p) f0_1) (normalize (flatten_points jr))).
  { unfold iteration_util. by rewrite Hlim. }
  split; [done|]. split; [reflexivity|]. split.
  { intros v rest -> Heq.
    destruct Hjl as [?|(v' & rest' & Hcons & Hv)]; [done|].
    injection Hcons as <- <-. rewrite Hlim in Heq. subst v. discriminate. }
  split; [exact Hutil|]. split; [by rewrite Hutil, length_map|]. split.
  { intros i t v Hi. by rewrite Hutil, lookup_map, Hi. }
  rewrite (iteration_with_points cfg jr jl G Hp). by rewrite Hutil.
Qed.

Lemma n_test_bounds (n : nat) :
  (n <= 5 * n_test n)%nat /\ (5 * n_test n < n + 5)%nat /\ (n_test n <= n)%nat.
Proof.
  unfold n_test.
  pose proof (Nat.div_mod_eq (n + 4) 5) as Hdm.
  pose proof (Nat.mod_upper_bound (n + 4) 5) as Hub.
  repeat split; lia.
Qed.

Lemma train_test_split_ordered Xs y Xtr Xte ytr yte :
  train_test_split Xs y = Val (Xtr, Xte, ytr, yte) ->
  length Xs = length y /\
  Xtr = take (length y - n_test (length y)) Xs /\
  Xte = drop (length y - n_test (length y)) Xs /\
  ytr = take (length y - n_test (length y)) y /\
  yte = drop (length y - n_test (length y)) y.
Proof.
  unfold train_test_split. intros H.
  destruct (Nat.eqb_spec (length Xs) (length y)) as [Hn|Hn]; simpl in H; [|done].
  destruct (Nat.eqb_spec (length Xs - n_test (length Xs)) 0); [done|].
  injection H as <- <- <- <-. by rewrite Hn.
Qed.

(** An iteration whose trace shows an estimator call went through the
    [else] branch. *)
Lemma iteration_fit_inv cfg range_answer instant_answer (G : gauge) r G' evs :
  iteration cfg range_answer instant_answer G = (r, G', evs) ->
  scaler_fit_inputs evs <> [] \/ lasso_fit_calls evs <> []
    \/ predict_calls evs <> [] ->
  exists jr jl r0,
    range_answer = Val jr /\ instant_answer = Val jl /\
    flatten_points jr <> [] /\
    (20 <= length (fst (make_supervised (iteration_util jr jl) (LAGS cfg))))%nat /\
    fit_run cfg (iteration_util jr jl)
      (fst (make_supervised (iteration_util jr jl) (LAGS cfg)))
      (snd (make_supervised (iteration_util jr jl) (LAGS cfg)))
      G (r0, G', evs) /\
    r = match r0 with Val _ => Val FallThrough | Raise e => Raise e end.
Proof.
  intros Hit Hcall.
  pose proof (iteration_is_run cfg range_answer instant_answer G) as Hrun.
  rewrite Hit in Hrun.
  inversion Hrun as [ | | | |jr jl r0 G0 evs0 Hjr Hne Hjl Hge Hfit];
    subst; simpl in Hcall; try (by destruct Hcall as [?|[?|?]]).
  by exists jr, jl, r0.
Qed.

(** What a run of the [else] branch that reached the regressor did. *)
Lemma fit_run_calls cfg util X y (G : gauge) r G' evs :
  fit_run cfg util X y G (r, G', evs) ->
  lasso_fit_calls evs <> [] ->
  exists sc Xs Xtr Xte ytr yte,
    scaler_fit X = Val sc /\
    scaler_transform sc X = Val Xs /\
    train_test_split Xs y = Val (Xtr, Xte, ytr, yte) /\
    scaler_fit_inputs evs = [X] /\
    lasso_fit_calls evs = [(Xtr, ytr)] /\
    (forall sc' X', In (sc', X') (transform_calls evs) ->
       sc' = sc /\
       (X' = X \/ exists w, latest_window util (LAGS cfg) = Val w /\ X' = row_frame w)) /\
    (forall model x, In (model, x) (predict_calls evs) ->
       lasso_fit Xtr ytr = Val model /\
       exists w, latest_window util (LAGS cfg) = Val w /\
                 scaler_transform sc (row_frame w) = Val x).
Proof.
  intros Hfit Hcall.
  inversion Hfit; subst; simpl in Hcall; try done;
    eexists _, _, _, _, _, _;
    (split; [eassumption|]); (split; [eassumption|]); (split; [eassumption|]);
    (split; [reflexivity|]); (split; [reflexivity|]); simpl;
    (split; [intros sc' X' Hin|intros model' x' Hin]);
    repeat match goal with
           | H : _ \/ _ |- _ => destruct H
           | H : False |- _ => destruct H
           | H : (_, _) = (_, _) |- _ => injection H as <- <-
           end;
    eauto 6.
Qed.

(** A run of the [else] branch that reached the prediction. *)
Lemma fit_run_predicted cfg util X y (G : gauge) r G' evs model x :
  fit_run cfg util X y G (r, G', evs) ->
  In (model, x) (predict_calls evs) ->
  predict_calls evs = [(model, x)] /\
  forall pred v, lasso_predict model x = Val pred -> item0 pred = Val v ->
    r = Val tt /\
    published evs = [(DEPLOY cfg, clamp v)] /\
    G' = <[DEPLOY cfg := clamp v]> G.
Proof.
  intros Hfit Hin.
  inversion Hfit; subst; simpl in Hin; try done;
    (destruct Hin as [Hin|[]]; injection Hin as <- <-);
    (split; [reflexivity|]); intros pred' v Hpred Hitem; simpl;
    repeat split; congruence.
Qed.

(** C9.  In every iteration that fits a model, the regressor is fitted on
    the train part of an ordered split of the scaled rows and the targets:
    the train part is the first [n - ceil(n / 5)] rows in row order, the
    test part is the last [ceil(n / 5)] rows, train followed by test is the
    dataset, so every train row precedes every test row. *)
Theorem split_is_chronological cfg range_answer instant_answer (G : gauge)
    r G' evs Xtr ytr :
  iteration cfg range_answer instant_answer G = (r, G', evs) ->
  In (Xtr, ytr) (lasso_fit_calls evs) ->
  exists jr jl sc Xs Xte yte,
    range_answer = Val jr /\ instant_answer = Val jl /\
    let X := fst (make_supervised (iteration_util jr jl) (LAGS cfg)) in
    let y := snd (make_supervised (iteration_util jr jl) (LAGS cfg)) in
    let n := length y in
    scaler_fit X = Val sc /\ scaler_transform sc X = Val Xs /\
    train_test_split Xs y = Val (Xtr, Xte, ytr, yte) /\
    lasso_fit_calls evs = [(Xtr, ytr)] /\
    Xtr ++ Xte = Xs /\ ytr ++ yte = y /\
    Xtr = take (n - n_test n) Xs /\ Xte = drop (n - n_test n) Xs /\
    ytr = take (n - n_test n) y /\ yte = drop (n - n_test n) y /\
    length Xtr = (n - n_test n)%nat /\ length ytr = (n - n_test n)%nat /\
    length Xte = n_test n /\ length yte = n_test n /\
    (n <= 5 * n_test n)%nat /\ (5 * n_test n < n + 5)%nat.
Proof.
  intros Hit Hin.
  assert (Hcall : lasso_fit_calls evs <> []) by (intros E; by rewrite E in Hin).
  destruct (iteration_fit_inv _ _ _ _ _ _ _ Hit (or_intror (or_introl Hcall)))
    as (jr & jl & r0 & -> & -> & Hne & Hge & Hfit & Hr).
  destruct (fit_run_calls _ _ _ _ _ _ _ _ Hfit Hcall)
    as (sc & Xs & Xtr' & Xte & ytr' & yte & Hsf & Hst & Hsplit & _ & Hcalls & _).
  rewrite Hcalls in Hin. destruct Hin as [Hin|[]]. injection Hin as -> ->.
  exists jr, jl, sc, Xs, Xte, yte.
  pose proof (train_test_split_ordered _ _ _ _ _ _ Hsplit)
    as (Hlen & HXtr & HXte & Hytr & Hyte).
  pose proof (n_test_bounds
    (length (snd (make_supervised (iteration_util jr jl) (LAGS cfg)))))
    as (Hb1 & Hb2 & Hb3).
  cbv zeta.
  split; [done|]. split; [done|]. split; [done|]. split; [done|].
  split; [done|]. split; [done|].
  split; [by rewrite HXtr, HXte, take_drop|].
  split; [by rewrite Hytr, Hyte, take_drop|].
  split; [done|]. split; [done|]. split; [done|]. split; [done|].
  rewrite HXtr, HXte, Hytr, Hyte, !length_take, !length_drop.
  repeat split; lia.
Qed.

(** C1.  Whenever the prediction step of an iteration produces the raw
    forecast v, the only value the iteration writes to the gauge, and the
    value the gauge then holds for the deployment, is
    [max(0.0, min(v, 2.0))]; this is 0.0 for v = -1, 0.5 for v = 0.5 and
    2.0 for v = 5. *)
Theorem forecast_is_clamped cfg range_answer instant_answer (G : gauge)
    r G' evs model x pred v :
  iteration cfg range_answer instant_answer G = (r, G', evs) ->
  In (model, x) (predict_calls evs) ->
  lasso_predict model x = Val pred ->
  item0 pred = Val v ->
  published evs = [(DEPLOY cfg, py_max f0_0 (py_min v f2_0))] /\
  G' !! DEPLOY cfg = Some (py_max f0_0 (py_min v f2_0)) /\
  r = Val FallThrough /\
  py_max f0_0 (py_min (of_Z (-1)) f2_0) = f0_0 /\
  py_max f0_0 (py_min f0_5 f2_0) = f0_5 /\
  py_max f0_0 (py_min (of_Z 5) f2_0) = f2_0.
Proof.
  intros Hit Hin Hpred Hitem.
  assert (Hcall : predict_calls evs <> []) by (intros E; by rewrite E in Hin).
  destruct (iteration_fit_inv _ _ _ _ _ _ _ Hit (or_intror (or_intror Hcall)))
    as (jr & jl & r0 & -> & -> & Hne & Hge & Hfit & ->).
  destruct (fit_run_predicted _ _ _ _ _ _ _ _ _ _ Hfit Hin) as [_ Hpub].
  destruct (Hpub pred v Hpred Hitem) as (-> & Hevs & ->).
  split; [exact Hevs|]. split; [apply lookup_insert_eq|].
  split; [reflexivity|]. by vm_compute.
Qed.

(** C6, as the code has it.  In every iteration that fits a model, the
    scaler is fitted exactly once, on the full feature matrix (all rows of
    the dataset, before the split); the rows given to the regressor and the
    held-out rows are the two parts of that matrix transformed by this
    scaler; every transform of the iteration uses this scaler, and the
    prediction input is the latest window transformed by it. *)
Theorem scaler_fit_on_all_rows cfg range_answer instant_answer (G : gauge)
    r G' evs :
  iteration cfg range_answer instant_answer G = (r, G', evs) ->
  lasso_fit_calls evs <> [] ->
  exists jr jl sc Xs Xtr Xte ytr yte,
    range_answer = Val jr /\ instant_answer = Val jl /\
    let util := iteration_util jr jl in
    let X := fst (make_supervised util (LAGS cfg)) in
    let y := snd (make_supervised util (LAGS cfg)) in
    scaler_fit_inputs evs = [X] /\
    scaler_fit X = Val sc /\
    scaler_transform sc X = Val Xs /\
    train_test_split Xs y = Val (Xtr, Xte, ytr, yte) /\
    Xtr ++ Xte = Xs /\
    lasso_fit_calls evs = [(Xtr, ytr)] /\
    (forall sc' X', In (sc', X') (transform_calls evs) ->
       sc' = sc /\
       (X' = X \/ exists w, latest_window util (LAGS cfg) = Val w /\ X' = row_frame w)) /\
    (forall model x, In (model, x) (predict_calls evs) ->
       exists w, latest_window util (LAGS cfg) = Val w /\
                 scaler_transform sc (row_frame w) = Val x).
Proof.
  intros Hit Hcall.
  destruct (iteration_fit_inv _ _ _ _ _ _ _ Hit (or_intror (or_introl Hcall)))
    as (jr & jl & r0 & -> & -> & Hne & Hge & Hfit & Hr).
  destruct (fit_run_calls _ _ _ _ _ _ _ _ Hfit Hcall)
    as (sc & Xs & Xtr & Xte & ytr & yte & Hsf & Hst & Hsplit & Hfits & Hcalls
        & Htr & Hpr).
  exists jr, jl, sc, Xs, Xtr, Xte, ytr, yte. cbv zeta.
  pose proof (train_test_split_ordered _ _ _ _ _ _ Hsplit)
    as (Hlen & HXtr & HXte & Hytr & Hyte).
  split; [done|]. split; [done|]. split; [done|]. split; [done|].
  split; [done|]. split; [done|].
  split; [by rewrite HXtr, HXte, take_drop|].
  split; [done|]. split; [exact Htr|].
  intros model x Hin. by destruct (Hpr model x Hin) as [_ ?].
Qed.

End LoopFacts.

(** ** The loop on concrete answers *)

Lemma run_components {A B C} (t : A * B * C) : t = (t.1.1, t.1.2, t.2).
Proof. by destruct t as [[? ?] ?]. Qed.

Lemma forecast_is_clamped_witness :
  exists x,
    In (tt, x) (@predict_calls reference_scaler (constant_model (of_Z 5))
                  (demo_run (constant_model (of_Z 5))).2) /\
    published (demo_run (constant_model (of_Z 5))).2 = [("cpu-demo"%string, f2_0)] /\
    (demo_run (constant_model (of_Z 5))).1.2 !! "cpu-demo"%string = Some f2_0.
Proof.
  set (x := nth 0 (map snd (@predict_calls reference_scaler (constant_model (of_Z 5))
                              (demo_run (constant_model (of_Z 5))).2)) []).
  assert (Hin : In (tt, x)
                  (@predict_calls reference_scaler (constant_model (of_Z 5))
                     (demo_run (constant_model (of_Z 5))).2)).
  { vm_compute. left. reflexivity. }
  exists x. split; [exact Hin|].
  destruct (@forecast_is_clamped reference_scaler (constant_model (of_Z 5))
              demo_config (Val demo_usage) (Val demo_limit) ∅
              (demo_run (constant_model (of_Z 5))).1.1
              (demo_run (constant_model (of_Z 5))).1.2
              (demo_run (constant_model (of_Z 5))).2
              tt x [of_Z 5] (of_Z 5)
              (run_components _) Hin eq_refl eq_refl) as (H1 & H2 & _).
  split; [exact H1|exact H2].
Defined.

Lemma too_few_rows_publishes_zero_witness :
  flatten_points demo_usage <> [] /\
  (length (iteration_util demo_usage demo_limit) < LAGS default_lags_config)%nat /\
  (@iteration reference_scaler intercept_model default_lags_config
     (Val demo_usage) (Val demo_limit) ∅).2
  = [ev_gauge_set "cpu-demo"%string f0_0].
Proof.
  assert (Hp : flatten_points demo_usage <> []) by (vm_compute; discriminate).
  assert (Hshort : (length (iteration_util demo_usage demo_limit)
                    < LAGS default_lags_config)%nat) by (vm_compute; lia).
  split; [exact Hp|]. split; [exact Hshort|].
  pose proof (@too_few_rows_publishes_zero reference_scaler intercept_model
                default_lags_config demo_usage demo_limit ∅ Hp
                (or_intror Hshort)) as H.
  destruct (@iteration reference_scaler intercept_model default_lags_config
              (Val demo_usage) (Val demo_limit) ∅) as [[r G'] evs].
  destruct H as (_ & H & _). exact H.
Defined.

Lemma empty_usage_publishes_nothing_witness :
  flatten_points [[]; []] = [] /\
  @loop_step reference_scaler intercept_model demo_config
    (Val [[]; []]) (Val demo_limit) {[ "cpu-demo"%string := f0_5 ]}
  = ({[ "cpu-demo"%string := f0_5 ]}, [ev_sleep 60]).
Proof.
  assert (Hp : flatten_points [[]; []] = []) by reflexivity.
  split; [exact Hp|].
  destruct (@empty_usage_publishes_nothing reference_scaler intercept_model
              demo_config [[]; []] (Val demo_limit)
              {[ "cpu-demo"%string := f0_5 ]} Hp) as (_ & H & _).
  exact H.
Defined.

Lemma nonpositive_limit_uses_fallback_witness :
  flatten_points demo_usage <> [] /\
  leb (of_Z 0) f0_0 = true /\
  effective_limit [of_Z 0] = f0_1 /\
  normalize (flatten_points demo_usage) !! 0%nat = Some (1700000000, of_Z 1) /\
  iteration_util demo_usage [of_Z 0] !! 0%nat = Some (of_Z 10).
Proof.
  assert (Hp : flatten_points demo_usage <> []) by (vm_compute; discriminate).
  assert (Hv : leb (of_Z 0) f0_0 = true) by reflexivity.
  assert (H0 : normalize (flatten_points demo_usage) !! 0%nat
               = Some (1700000000, of_Z 1)) by (by vm_compute).
  split; [exact Hp|]. split; [exact Hv|].
  destruct (@nonpositive_limit_uses_fallback reference_scaler intercept_model
              demo_config demo_usage [of_Z 0] ∅ Hp
              (or_intror (ex_intro _ (of_Z 0)
                 (ex_intro _ [] (conj eq_refl Hv)))))
    as (H1 & _ & _ & _ & _ & H2 & _).
  split; [exact H1|]. split; [exact H0|].
  rewrite (H2 0%nat 1700000000 (of_Z 1) H0). by vm_compute.
Defined.

Lemma split_is_chronological_witness :
  exists (Xtr : matrix) (ytr : list float) (Xte : matrix) (yte : list float),
    In (Xtr, ytr) (@lasso_fit_calls reference_scaler intercept_model (demo_run intercept_model).2) /\
    ytr ++ yte = snd (make_supervised (iteration_util demo_usage demo_limit) 2) /\
    length Xtr = 18%nat /\ length Xte = 5%nat.
Proof.
  set (Xtr := nth 0 (map fst (@lasso_fit_calls reference_scaler intercept_model (demo_run intercept_model).2)) []).
  set (ytr := nth 0 (map snd (@lasso_fit_calls reference_scaler intercept_model (demo_run intercept_model).2)) []).
  assert (Hin : In (Xtr, ytr) (@lasso_fit_calls reference_scaler intercept_model (demo_run intercept_model).2)).
  { vm_compute. left. reflexivity. }
  destruct (@split_is_chronological reference_scaler intercept_model
              demo_config (Val demo_usage) (Val demo_limit) ∅
              (demo_run intercept_model).1.1 (demo_run intercept_model).1.2
              (demo_run intercept_model).2 Xtr ytr
              (run_components _) Hin)
    as (jr & jl & sc & Xs & Xte & yte & Hjr & Hjl & H).
  injection Hjr as <-. injection Hjl as <-. cbv zeta in H.
  destruct H as (_ & _ & _ & _ & _ & Hy & _ & _ & _ & _ & H1 & _ & H2 & _).
  exists Xtr, ytr, Xte, yte.
  split; [exact Hin|]. split; [exact Hy|].
  split; [rewrite H1|rewrite H2]; vm_compute; reflexivity.
Defined.

Lemma scaler_fit_on_all_rows_witness :
  @lasso_fit_calls reference_scaler intercept_model (demo_run intercept_model).2 <> [] /\
  @scaler_fit_inputs reference_scaler intercept_model (demo_run intercept_model).2
  = [fst (make_supervised (iteration_util demo_usage demo_limit) 2)].
Proof.
  assert (Hcall : @lasso_fit_calls reference_scaler intercept_model
                    (demo_run intercept_model).2 <> [])
    by (vm_compute; discriminate).
  split; [exact Hcall|].
  destruct (@scaler_fit_on_all_rows reference_scaler intercept_model
              demo_config (Val demo_usage) (Val demo_limit) ∅
              (demo_run intercept_model).1.1 (demo_run intercept_model).1.2
              (demo_run intercept_model).2
              (run_components _) Hcall)
    as (jr & jl & sc & Xs & Xtr & Xte & ytr & yte & Hjr & Hjl & H).
  injection Hjr as <-. injection Hjl as <-.
  destruct H as (H & _). exact H.
Defined.

(** C6 as stated fails: on the demo answers the iteration fits a model on
    18 training rows, the scaler is fitted on all 23 rows of the feature
    matrix, and the scaler the iteration transforms with is not the one the
    18 training rows alone would give. *)
Lemma scaler_not_fit_on_train_rows_only :
  let evs := (demo_run intercept_model).2 in
  let X := fst (make_supervised (iteration_util demo_usage demo_limit) 2) in
  let n_train := (length X - n_test (length X))%nat in
  map (fun c => length (fst c)) (@lasso_fit_calls reference_scaler intercept_model evs) = [n_train] /\
  n_train = 18%nat /\ length X = 23%nat /\
  @scaler_fit_inputs reference_scaler intercept_model evs = [X] /\
  @scaler_fit_inputs reference_scaler intercept_model evs <> [take n_train X] /\
  ~ (forall sc X', In (sc, X') (@transform_calls reference_scaler intercept_model evs) ->
       reference_fit (take n_train X) = Val sc).
Proof.
  cbv zeta.
  split; [vm_compute; reflexivity|]. split; [vm_compute; reflexivity|]. 
  split; [vm_compute; reflexivity|].
  split; [vm_compute; reflexivity|]. split.
  - intros H. apply (f_equal (map (@length _))) in H.
    vm_compute in H. discriminate H.
  - intros H.
    specialize (H (nth 0 (map fst (@transform_calls reference_scaler intercept_model
                                     (demo_run intercept_model).2))
                     {| mean_ := []; scale_ := [] |})
                  (nth 0 (map snd (@transform_calls reference_scaler intercept_model
                                     (demo_run intercept_model).2)) [])).
    assert (Hin : In (nth 0 (map fst (@transform_calls reference_scaler intercept_model
                                     (demo_run intercept_model).2))
                     {| mean_ := []; scale_ := [] |},
                      nth 0 (map snd (@transform_calls reference_scaler intercept_model
                                     (demo_run intercept_model).2)) [])
                  (@transform_calls reference_scaler intercept_model
                     (demo_run intercept_model).2)).
    { vm_compute. left. reflexivity. }
    specialize (H Hin). vm_compute in H. discriminate H.
Qed.

(** ** The normaliser *)

Lemma insert_by_ts_perm p l : Permutation (p :: l) (insert_by_ts p l).
Proof.
  induction l as [|q r IH]; simpl; [done|].
  destruct (fst p <=? fst q); [done|].
  rewrite perm_swap. by constructor.
Qed.

Lemma sort_values_perm l : Permutation l (sort_values l).
Proof.
  induction l as [|p r IH]; simpl; [done|].
  rewrite <- insert_by_ts_perm. by constructor.
Qed.

Lemma insert_by_ts_sorted p l :
  Sorted ts_le l -> Sorted ts_le (insert_by_ts p l).
Proof.
  induction 1 as [|q r Hs IH Hhd]; simpl.
  - repeat constructor.
  - destruct (Z.leb_spec (fst p) (fst q)) as [Hle|Hgt].
    + constructor; [by constructor|]. by constructor.
    + constructor; [exact IH|].
      destruct r as [|q' r']; simpl.
      * constructor. unfold ts_le. lia.
      * destruct (fst p <=? fst q'); constructor.
        -- unfold ts_le. lia.
        -- by inversion Hhd.
Qed.

Lemma sort_values_sorted l : Sorted ts_le (sort_values l).
Proof.
  induction l as [|p r IH]; simpl; [constructor|].
  by apply insert_by_ts_sorted.
Qed.

Lemma tail_all {A} (s : list A) : tail (length s) s = s.
Proof. unfold tail. by rewrite Nat.sub_diag. Qed.

Lemma normalize_unfold points :
  normalize points = bfill (ffill (resample_5s_mean (sort_values points))).
Proof. unfold normalize. apply tail_all. Qed.

(** Filling keeps the slots and every value that is present. *)
Lemma ffill_from_lookup prev s i t v :
  s !! i = Some (t, v) -> isnan v = false ->
  ffill_from prev s !! i = Some (t, v).
Proof.
  revert prev i. induction s as [|[t' v'] r IH]; intros prev i Hi Hv; [done|].
  destruct i as [|i]; simpl in *.
  - injection Hi as -> ->. by rewrite Hv.
  - by apply IH.
Qed.

Lemma bfill_lookup s i t v :
  s !! i = Some (t, v) -> isnan v = false -> bfill s !! i = Some (t, v).
Proof.
  revert i. induction s as [|[t' v'] r IH]; intros i Hi Hv; [done|].
  destruct i as [|i]; simpl in *.
  - injection Hi as -> ->. by rewrite Hv.
  - by apply IH.
Qed.


Lemma bfill_dense s : dense (map snd s) -> bfill s = s.
Proof.
  induction s as [|[t v] r IH]; intros Hd; [done|].
  simpl in *. inversion Hd as [|? ? Hv Hr]; subst.
  rewrite Hv. f_equal. by apply IH.
Qed.

(** The slots of the resampled series. *)
Lemma resample_lookup df p0 k :
  head df = Some p0 ->
  bucket (fst p0) <= k <= bucket (fst (List.last df p0)) ->
  resample_5s_mean df !! Z.to_nat (k - bucket (fst p0))
  = Some (5 * k, mean (bucket_values k df)).
Proof.
  intros Hhd Hk. destruct df as [|p df']; [done|].
  injection Hhd as ->. unfold resample_5s_mean. cbv zeta.
  rewrite lookup_map, lookup_seqZ_lt by lia. simpl.
  by replace (bucket (fst p0) + Z.of_nat (Z.to_nat (k - bucket (fst p0)))) with k by lia.
Qed.

Lemma bucket_mono t1 t2 : t1 <= t2 -> bucket t1 <= bucket t2.
Proof. intros H. unfold bucket. apply Z.div_le_mono; lia. Qed.

Lemma sorted_head_least p l q :
  Sorted ts_le (p :: l) -> In q (p :: l) -> fst p <= fst q.
Proof.
  intros Hs Hin. apply Sorted_StronglySorted in Hs.
  2:{ intros a b c; unfold ts_le; lia. }
  inversion Hs as [|? ? _ Hall]; subst.
  destruct Hin as [->|Hin]; [lia|].
  rewrite List.Forall_forall in Hall. by apply Hall.
Qed.

Lemma sorted_last_greatest l d q :
  Sorted ts_le l -> In q l -> fst q <= fst (List.last l d).
Proof.
  intros Hs. apply Sorted_StronglySorted in Hs.
  2:{ intros a b c; unfold ts_le; lia. }
  revert q. induction Hs as [|p l Hs IH Hall]; intros q Hin; [done|].
  destruct l as [|p' l'].
  - destruct Hin as [->|[]]. simpl. lia.
  - change (List.last (p :: p' :: l') d) with (List.last (p' :: l') d).
    destruct Hin as [->|Hin].
    + rewrite List.Forall_forall in Hall.
      pose proof (Hall p' (or_introl eq_refl)) as H1. unfold ts_le in H1.
      pose proof (IH p' (or_introl eq_refl)). lia.
    + by apply IH.
Qed.

(** ** The mean of a bin *)

Lemma sub_zero_r (v : float) : sub v f0_0 = v.
Proof. destruct v as [s|s| |s m e]; try reflexivity. by destruct s. Qed.

Lemma add_comm (x y : float) : add x y = add y x.
Proof.
  destruct x as [sx|sx| |sx mx ex], y as [sy|sy| |sy my ey]; try reflexivity.
  - by destruct sx, sy.
  - by destruct sx, sy.
  - unfold add, SFadd. rewrite (Z.min_comm ey ex).
    f_equal. apply Z.add_comm.
Qed.

Lemma mean_present (x : float) (xs : list float) :
  Forall (fun v => isnan v = false) (x :: xs) ->
  mean (x :: xs)
  = div (compensated_sum x xs) (of_Z (Z.of_nat (length (x :: xs)))).
Proof.
  intros Hd. unfold mean.
  rewrite filter_all_true; [done|].
  intros v Hv. rewrite List.Forall_forall in Hd. unfold notnan. by rewrite (Hd v Hv).
Qed.

Lemma mean_skips_missing (vs : list float) :
  mean vs = mean (List.filter notnan vs).
Proof.
  unfold mean. rewrite (filter_all_true notnan (List.filter notnan vs)); [done|].
  intros v Hv. apply filter_In in Hv. tauto.
Qed.

Lemma mean_pair (v1 v2 : float) :
  isnan v1 = false -> isnan v2 = false ->
  mean [v1; v2] = div (add v1 v2) f2_0.
Proof.
  intros H1 H2. rewrite mean_present by (by repeat constructor).
  unfold compensated_sum. cbn [fold_left kahan_step fst].
  by rewrite sub_zero_r.
Qed.

Lemma mean_triple (v1 v2 v3 : float) :
  isnan v1 = false -> isnan v2 = false -> isnan v3 = false ->
  mean [v1; v2; v3]
  = (let t := add v1 v2 in
     let c := sub (sub t v1) v2 in
     div (add t (sub v3 (if isnan c then f0_0 else c))) (of_Z 3)).
Proof.
  intros H1 H2 H3. rewrite mean_present by (by repeat constructor).
  unfold compensated_sum. cbn [fold_left kahan_step fst].
  by rewrite sub_zero_r.
Qed.

Lemma bucket_values_perm k (l1 l2 : list point) :
  Permutation l1 l2 -> Permutation (bucket_values k l1) (bucket_values k l2).
Proof.
  intros H. unfold bucket_values. apply Permutation_map.
  induction H as [|x l l' _ IH|x y l|l l' l'' _ IH1 _ IH2]; cbn [List.filter].
  - constructor.
  - destruct (in_bucket k x); [by constructor|done].
  - destruct (in_bucket k x), (in_bucket k y); try reflexivity. constructor.
  - by etrans.
Qed.

(** C7, as the code has it.  Normalisation first sorts the raw points
    ascending by timestamp and drops none of them.  Whatever sorted frame
    the sort returns (the order among equal timestamps is not fixed), every
    point contributes to the mean of its 5-second bin: the values of the
    bin are those of all the points stamped inside it, duplicates of a
    timestamp included; the slot of the bin holds their mean, and this
    mean, when it is a number, is the value the normalised series keeps for
    the slot.  The mean skips missing values and is the compensated sum of
    the present ones, in frame order, over their count: the value itself
    for one value, [(v1 + v2) / 2] for two values in either order, and for
    three values the sum [v1 + v2] plus the third value less the rounding
    error of that sum, over 3. *)
Theorem normalize_sorts_then_averages (points : list point) :
  let df := sort_values points in
  (Sorted ts_le df /\ Permutation points df /\
   normalize points = bfill (ffill (resample_5s_mean df))) /\
  (forall frame, Sorted ts_le frame -> Permutation points frame ->
   forall p, In p points ->
     let k := bucket (fst p) in
     let vs := bucket_values k frame in
     In (snd p) vs /\
     Permutation vs (bucket_values k points) /\
     exists i,
       resample_5s_mean frame !! i = Some (5 * k, mean vs) /\
       (isnan (mean vs) = false ->
        bfill (ffill (resample_5s_mean frame)) !! i = Some (5 * k, mean vs))) /\
  (forall vs, mean vs = mean (List.filter notnan vs)) /\
  (forall x xs, Forall (fun v => isnan v = false) (x :: xs) ->
     mean (x :: xs)
     = div (compensated_sum x xs) (of_Z (Z.of_nat (length (x :: xs))))) /\
  (forall v, isnan v = false -> mean [v] = div v f1_0) /\
  (forall v1 v2 vs, isnan v1 = false -> isnan v2 = false ->
     Permutation vs [v1; v2] -> mean vs = div (add v1 v2) f2_0) /\
  (forall v1 v2 v3, isnan v1 = false -> isnan v2 = false -> isnan v3 = false ->
     mean [v1; v2; v3]
     = (let t := add v1 v2 in
        let c := sub (sub t v1) v2 in
        div (add t (sub v3 (if isnan c then f0_0 else c))) (of_Z 3))).
Proof.
  intros df.
  split.
  { split; [apply sort_values_sorted|]. split; [apply sort_values_perm|].
    apply normalize_unfold. }
  split.
  { intros frame Hs Hperm p Hp k vs.
    assert (Hin : In p frame) by (by apply (Permutation_in _ Hperm)).
    split.
    { unfold vs, bucket_values. apply in_map. apply filter_In. split; [done|].
      unfold in_bucket, k. apply Z.eqb_refl. }
    split.
    { apply bucket_values_perm. by symmetry. }
    destruct frame as [|p0 frame'] eqn:Ef; [done|].
    assert (Hlo : bucket (fst p0) <= k).
    { apply bucket_mono. by apply (sorted_head_least p0 frame'). }
    assert (Hhi : k <= bucket (fst (List.last (p0 :: frame') p0))).
    { apply bucket_mono. by apply sorted_last_greatest. }
    exists (Z.to_nat (k - bucket (fst p0))).
    pose proof (resample_lookup (p0 :: frame') p0 k eq_refl (conj Hlo Hhi)) as Hslot.
    split; [exact Hslot|].
    intros Hnum. apply bfill_lookup; [|done]. by apply ffill_from_lookup. }
  split; [apply mean_skips_missing|].
  split; [apply mean_present|].
  split.
  { intros v Hv. by rewrite mean_present by (by repeat constructor). }
  split; [|apply mean_triple].
  intros v1 v2 vs H1 H2 Hperm.
  apply Permutation_sym, Permutation_length_2_inv in Hperm as [->| ->].
  - by apply mean_pair.
  - rewrite (add_comm v1 v2). by apply mean_pair.
Qed.

Lemma normalize_sorts_then_averages_witness :
  In (0, of_Z 3) duplicate_points /\
  In (of_Z 3) (bucket_values 0 (sort_values duplicate_points)) /\
  mean (bucket_values 0 (sort_values duplicate_points)) = of_Z 2 /\
  normalize duplicate_points = [(0, of_Z 2)].
Proof.
  assert (Hin : In (0, of_Z 3) duplicate_points) by (right; left; reflexivity).
  destruct (normalize_sorts_then_averages duplicate_points)
    as ((Hs & Hp & Hn) & H & _ & _ & _ & Hpair & _).
  destruct (H (sort_values duplicate_points) Hs Hp (0, of_Z 3) Hin)
    as (Hv & Hperm & _).
  split; [exact Hin|]. split; [exact Hv|]. split.
  - change (Permutation (bucket_values 0 (sort_values duplicate_points))
                         [of_Z 1; of_Z 3]) in Hperm.
    rewrite (Hpair (of_Z 1) (of_Z 3) _ eq_refl eq_refl Hperm). by vm_compute.
  - by vm_compute.
Defined.

(** C7 as stated fails: of two points written for the same timestamp, the
    later value (3.0) is not the one the normalised series keeps; the slot
    holds their mean (2.0). *)
Lemma duplicate_timestamps_are_averaged :
  last_written 0 duplicate_points = Some (of_Z 3) /\
  normalize duplicate_points = [(0, of_Z 2)] /\
  ~ In (0, of_Z 3) (normalize duplicate_points).
Proof.
  split; [by vm_compute|]. split; [by vm_compute|].
  vm_compute. intros [H|[]]. discriminate H.
Qed.

(** Three values in one bin, 0.1, 0.2 and 0.3 arriving out of order: the
    slot holds 0.19999999999999998, the compensated sum 0.6 over 3, where
    the plain sum 0.6000000000000001 would give 0.20000000000000004. *)
Example three_values_in_a_bin :
  normalize three_in_a_bin = [(0, S754_finite false 7205759403792793 (-55))] /\
  div (add (add f0_1 f0_2) f0_3) (of_Z 3)
  = S754_finite false 7205759403792795 (-55).
Proof. by vm_compute. Qed.

(** ** A series already on the 5-second cadence *)

Lemma sort_values_on_cadence step t s :
  0 <= step -> on_cadence step t s -> sort_values s = s.
Proof.
  intros Hstep. revert t. induction s as [|p r IH]; intros t Hc; [done|].
  destruct Hc as [Hp Hr]. cbn [sort_values]. rewrite (IH _ Hr).
  destruct r as [|q r']; [done|].
  destruct Hr as [Hq _]. cbn [insert_by_ts].
  destruct (Z.leb_spec (fst p) (fst q)); [done|lia].
Qed.

Lemma on_cadence_lookup step t s i p :
  on_cadence step t s -> s !! i = Some p -> fst p = t + step * Z.of_nat i.
Proof.
  revert t i. induction s as [|q r IH]; intros t i Hc Hi; [done|].
  destruct Hc as [Hq Hr]. destruct i as [|i]; simpl in Hi.
  - injection Hi as ->. lia.
  - rewrite (IH _ _ Hr Hi). lia.
Qed.

Lemma bucket_of_multiple k : bucket (5 * k) = k.
Proof. unfold bucket. rewrite Z.mul_comm. apply Z.div_mul. lia. Qed.

Lemma bucket_values_cons k p r :
  bucket_values k (p :: r)
  = (if bucket (fst p) =? k then [snd p] else []) ++ bucket_values k r.
Proof.
  unfold bucket_values. cbn [List.filter]. unfold in_bucket at 1.
  by destruct (bucket (fst p) =? k).
Qed.





Lemma last_on_cadence (s : list point) p0 d :
  head s = Some p0 ->
  exists p, s !! (length s - 1)%nat = Some p /\ List.last s d = p.
Proof.
  intros Hhd. destruct s as [|q r]; [done|]. clear Hhd.
  revert q. induction r as [|q' r IH]; intros q.
  - exists q. by simpl.
  - destruct (IH q') as (p & Hp & Hl). exists p. split.
    + simpl in *. by rewrite Nat.sub_0_r in Hp.
    + exact Hl.
Qed.

(** ** Averaging a single value

    A bin with one sample: the sum is the sample and the mean [v / 1.0].
    On binary64 values the division by 1.0 is exact. *)

Lemma div_eucl_exact (a b : Z) : 0 < b -> Z.div_eucl (a * b) b = (a, 0).
Proof.
  intros Hb. rewrite (surjective_pairing (Z.div_eucl (a * b) b)).
  change (fst (Z.div_eucl (a * b) b)) with ((a * b) / b).
  change (snd (Z.div_eucl (a * b) b)) with ((a * b) mod b).
  rewrite Z.div_mul, Z.mod_mul by lia. reflexivity.
Qed.

Lemma bounded_canonical m e :
  bounded prec emax m e = true ->
  fexp prec emax (Zpos (digits2_pos m) + e) = e /\ e <= 971.
Proof.
  unfold bounded, canonical_mantissa. intros H.
  apply andb_true_iff in H as [H1 H2].
  apply Z.eqb_eq in H1. apply Z.leb_le in H2.
  unfold prec, emax in *. split; [exact H1|lia].
Qed.

Lemma shr_fexp_canonical m e :
  fexp prec emax (Zpos (digits2_pos m) + e) = e ->
  shr_fexp prec emax (Zpos m) e loc_Exact
  = ({| shr_m := Zpos m; shr_r := false; shr_s := false |}, e).
Proof.
  intros H. unfold shr_fexp. cbn [Zdigits2 shr_record_of_loc].
  rewrite H, Z.sub_diag. reflexivity.
Qed.

Lemma binary_round_aux_canonical s m e :
  bounded prec emax m e = true ->
  binary_round_aux prec emax s (Zpos m) e loc_Exact = S754_finite s m e.
Proof.
  intros Hb. destruct (bounded_canonical m e Hb) as [Hc He].
  unfold binary_round_aux.
  rewrite (shr_fexp_canonical m e Hc).
  cbn [shr_m loc_of_shr_record round_nearest_even].
  rewrite (shr_fexp_canonical m e Hc). cbn [shr_m].
  unfold prec, emax. destruct (Z.leb_spec e (1024 - 53)); [reflexivity|lia].
Qed.

Lemma binary_round_aux_doubled s m e :
  bounded prec emax m e = true ->
  Zpos (digits2_pos m) = 53 -> -1073 <= e ->
  binary_round_aux prec emax s (Zpos m~0) (e - 1) loc_Exact = S754_finite s m e.
Proof.
  intros Hb Hd Hlo. destruct (bounded_canonical m e Hb) as [Hc He].
  unfold binary_round_aux.
  assert (Hs : shr_fexp prec emax (Zpos m~0) (e - 1) loc_Exact
               = ({| shr_m := Zpos m; shr_r := false; shr_s := false |}, e)).
  { unfold shr_fexp. cbn [Zdigits2 shr_record_of_loc digits2_pos].
    rewrite Pos2Z.inj_succ, Hd.
    replace (fexp prec emax (Z.succ 53 + (e - 1)) - (e - 1)) with 1
      by (unfold fexp, emin, prec, emax; lia).
    cbn. f_equal. lia. }
  rewrite Hs. cbn [shr_m loc_of_shr_record round_nearest_even].
  rewrite (shr_fexp_canonical m e Hc). cbn [shr_m].
  unfold prec, emax. destruct (Z.leb_spec e (1024 - 53)); [reflexivity|lia].
Qed.

Lemma div_by_one s m e :
  bounded prec emax m e = true ->
  div (S754_finite s m e) f1_0 = S754_finite s m e.
Proof.
  intros Hb. destruct (bounded_canonical m e Hb) as [Hc He].
  unfold div, f1_0, SFdiv, SFdiv_core_binary.
  change (Zdigits2 (Zpos 4503599627370496)) with 53.
  cbn [Zdigits2].
  assert (Hpos : 0 < Zpos (digits2_pos m)) by lia.
  destruct (decide (Zpos (digits2_pos m) = 53 /\ -1073 <= e)) as [[Hd Hlo]|Hsub].
  - replace (Z.min (fexp prec emax (Zpos (digits2_pos m) + e - (53 + -52))) (e - -52))
      with (e - 1) by (unfold fexp, emin, prec, emax in *; lia).
    replace (e - -52 - (e - 1)) with 53 by lia.
    rewrite Z.shiftl_mul_pow2 by lia.
    replace (Zpos m * 2 ^ 53) with (Zpos m~0 * 4503599627370496) by lia.
    rewrite div_eucl_exact by lia.
    change (new_location 4503599627370496 0) with loc_Exact.
    rewrite xorb_false_r. by apply binary_round_aux_doubled.
  - replace (Z.min (fexp prec emax (Zpos (digits2_pos m) + e - (53 + -52))) (e - -52))
      with e by (unfold fexp, emin, prec, emax in *; lia).
    replace (e - -52 - e) with 52 by lia.
    rewrite Z.shiftl_mul_pow2 by lia.
    replace (Zpos m * 2 ^ 52) with (Zpos m * 4503599627370496) by lia.
    rewrite div_eucl_exact by lia.
    change (new_location 4503599627370496 0) with loc_Exact.
    rewrite xorb_false_r. by apply binary_round_aux_canonical.
Qed.

Lemma mean_one (v : float) : is_double v -> mean [v] = v.
Proof.
  intros Hd. unfold mean. cbn [List.filter]. unfold notnan.
  destruct v as [s|s| |s m e]; cbn [isnan negb]; try reflexivity.
  - by destruct s.
  - by destruct s.
  - unfold compensated_sum. cbn [fold_left fst length].
    change (of_Z (Z.of_nat 1)) with f1_0. by apply div_by_one.
Qed.

Lemma mean_single v :
  is_double v -> isnan v = false -> v <> neg_zero -> mean [v] = v.
Proof. intros Hd _ _. by apply mean_one. Qed.




(** ** Further checks on concrete values *)

(** The tests named with C5: a limit of 0 and a limit of -1. *)
Example limit_zero_and_minus_one :
  effective_limit [of_Z 0] = f0_1 /\ effective_limit [of_Z (-1)] = f0_1 /\
  effective_limit [] = f0_1 /\ effective_limit [of_Z 4] = of_Z 4.
Proof. by vm_compute. Qed.

(** A missing forecast (NaN) and both infinities are clamped as well. *)
Example clamp_special_values :
  clamp nan = f0_0 /\ clamp (S754_infinity false) = f2_0 /\
  clamp (S754_infinity true) = f0_0 /\ clamp neg_zero = f0_0.
Proof. by vm_compute. Qed.

(** The three runs named with C1, end to end on the demo answers. *)
Example demo_runs_publish_clamped_forecast :
  published (demo_run (constant_model (of_Z (-1)))).2 = [("cpu-demo"%string, f0_0)] /\
  published (demo_run (constant_model f0_5)).2 = [("cpu-demo"%string, f0_5)] /\
  published (demo_run (constant_model (of_Z 5))).2 = [("cpu-demo"%string, f2_0)].
Proof. by vm_compute. Qed.

(** * Further properties of the loop *)

(** ** Comparisons of doubles *)

Lemma SFcompare_antisym (x y : float) :
  SFcompare y x = option_map CompOpp (SFcompare x y).
Proof.
  destruct x as [sx|sx| |sx mx ex], y as [sy|sy| |sy my ey]; simpl;
    try reflexivity;
    try (destruct sx; reflexivity); try (destruct sy; reflexivity);
    try (destruct sx, sy; reflexivity).
  destruct sx, sy; simpl; try reflexivity;
    rewrite (Z.compare_antisym ex ey);
    destruct (ex ?= ey) eqn:E; simpl; try reflexivity;
    pose proof (Pos.compare_cont_antisym mx my Eq) as Ha; simpl in Ha;
    destruct (Pos.compare_cont Eq mx my), (Pos.compare_cont Eq my mx);
    simpl in *; congruence.
Qed.

Lemma ltb_leb (x y : float) : ltb x y = true -> leb x y = true.
Proof.
  unfold ltb, leb, SFltb, SFleb.
  by destruct (SFcompare x y) as [[ | | ]|].
Qed.

Lemma not_ltb_leb (x y : float) :
  ltb y x = false -> isnan x = false -> isnan y = false -> leb x y = true.
Proof.
  unfold ltb, leb, SFltb, SFleb. rewrite (SFcompare_antisym x y).
  intros Hlt Hx Hy.
  destruct (SFcompare x y) as [[ | | ]|] eqn:E; simpl in *; try done.
  destruct x as [sx|sx| |sx mx ex], y as [sy|sy| |sy my ey]; simpl in *; done.
Qed.

Lemma ltb_not_nan_r (x y : float) : ltb x y = true -> isnan y = false.
Proof.
  unfold ltb, SFltb.
  destruct x as [sx|sx| |sx mx ex], y as [sy|sy| |sy my ey]; simpl; done.
Qed.

(** The clamp of line 219 lands in the forecast range whatever the raw
    forecast is: NaN and the infinities included. *)
Lemma clamp_in_range (yhat : float) : in_forecast_range (clamp yhat).
Proof.
  unfold in_forecast_range, clamp, py_max, py_min, gtb.
  destruct (ltb f2_0 yhat) eqn:Hhi.
  - by vm_compute.
  - destruct (SFltb f0_0 yhat) eqn:Hlo.
    + split; [by apply ltb_leb|].
      apply not_ltb_leb; [exact Hhi| |reflexivity].
      by apply (ltb_not_nan_r f0_0).
    + by vm_compute.
Qed.

(** ** Turns of the loop *)

Section TurnFacts.

Context `{SS : StandardScaler} `{LM : Lasso}.

Lemma published_app (e1 e2 : list event) :
  published (e1 ++ e2) = published e1 ++ published e2.
Proof. unfold published. apply flat_map_app. Qed.

Lemma sleeps_app (e1 e2 : list event) : sleeps (e1 ++ e2) = sleeps e1 ++ sleeps e2.
Proof. unfold sleeps. apply flat_map_app. Qed.

Lemma logged_errors_app (e1 e2 : list event) :
  logged_errors (e1 ++ e2) = logged_errors e1 ++ logged_errors e2.
Proof. unfold logged_errors. apply flat_map_app. Qed.

Lemma replay_app w1 w2 (G : gauge) : replay (w1 ++ w2) G = replay w2 (replay w1 G).
Proof. unfold replay. apply fold_left_app. Qed.

(** What any iteration does to the gauge and which effects it has. *)
Lemma iteration_effects cfg range_answer instant_answer (G : gauge) r G' evs :
  iteration cfg range_answer instant_answer G = (r, G', evs) ->
  G' = replay (published evs) G /\
  (published evs = [] \/
   exists v, published evs = [(DEPLOY cfg, v)] /\ in_forecast_range v /\
             r = Val FallThrough) /\
  sleeps evs = match r with Val Continue => [INTERVAL cfg] | _ => [] end /\
  logged_errors evs = [].
Proof.
  intros Hit.
  pose proof (iteration_is_run cfg range_answer instant_answer G) as Hrun.
  rewrite Hit in Hrun.
  inversion Hrun as [ | | | |jr jl r0 G0 evs0 Hjr Hne Hjl Hge Hfit]; subst.
  - repeat split; by left.
  - repeat split; by left.
  - repeat split; by left.
  - repeat split. right. exists f0_0. repeat split; by vm_compute.
  - clear Hrun Hit.
    remember (fst (make_supervised (iteration_util jr jl) (LAGS cfg))) as X.
    remember (snd (make_supervised (iteration_util jr jl) (LAGS cfg))) as y.
    clear HeqX Heqy Hge.
    inversion Hfit; subst; simpl; repeat split; try (by left).
    right. exists (clamp yhat). repeat split; apply clamp_in_range.
Qed.

Lemma loop_step_effects cfg range_answer instant_answer (G : gauge) :
  let '(G', evs) := loop_step cfg range_answer instant_answer G in
  G' = replay (published evs) G /\
  (published evs = [] \/
   exists v, published evs = [(DEPLOY cfg, v)] /\ in_forecast_range v) /\
  sleeps evs = [INTERVAL cfg] /\
  last evs = Some (ev_sleep (INTERVAL cfg)).
Proof.
  unfold loop_step.
  destruct (iteration cfg range_answer instant_answer G) as [[r G'] evs] eqn:Hit.
  destruct (iteration_effects _ _ _ _ _ _ _ Hit) as (HG & Hpub & Hsl & Herr).
  assert (Hpub' : published evs = [] \/
            exists v, published evs = [(DEPLOY cfg, v)] /\ in_forecast_range v).
  { destruct Hpub as [?|(v & ? & ? & _)]; [by left|right; by exists v]. }
  destruct r as [[|]|e].
  - rewrite published_app, sleeps_app, Hsl. simpl. rewrite app_nil_r.
    repeat split; try done. by rewrite last_snoc.
  - repeat split; try done.
    pose proof (iteration_is_run cfg range_answer instant_answer G) as Hrun.
    rewrite Hit in Hrun. inversion Hrun; subst; try done.
    match goal with H : fit_run _ _ _ _ _ (?r0, _, _) |- _ => by destruct r0 end.
  - rewrite published_app, sleeps_app, Hsl. simpl. rewrite app_nil_r.
    repeat split; try done.
    change (evs ++ [ev_log_error e; ev_sleep (INTERVAL cfg)])
      with (evs ++ [ev_log_error e] ++ [ev_sleep (INTERVAL cfg)]).
    by rewrite app_assoc, last_snoc.
Qed.

Lemma replay_other writes (G : gauge) label :
  Forall (fun w => fst w <> label) writes ->
  replay writes G !! label = G !! label.
Proof.
  revert G. induction writes as [|[l v] ws IH]; intros G Hall; [done|].
  inversion Hall as [|? ? Hl Hws]; subst. simpl in *.
  change (replay ws (<[l := v]> G) !! label = G !! label).
  rewrite (IH _ Hws). by apply lookup_insert_ne.
Qed.

Lemma replay_range writes (G : gauge) :
  (forall l v, G !! l = Some v -> in_forecast_range v) ->
  Forall (fun w => in_forecast_range (snd w)) writes ->
  forall l v, replay writes G !! l = Some v -> in_forecast_range v.
Proof.
  revert G. induction writes as [|[l0 v0] ws IH]; intros G HG Hall l v; [apply HG|].
  inversion Hall as [|? ? Hv Hws]; subst. simpl in *.
  change (replay ws (<[l0 := v0]> G) !! l = Some v -> in_forecast_range v).
  apply IH; [|done]. intros l' v' Hl'.
  destruct (decide (l0 = l')) as [->|Hne].
  - rewrite lookup_insert_eq in Hl'. by injection Hl' as <-.
  - rewrite lookup_insert_ne in Hl' by done. by apply (HG l').
Qed.

Lemma replay_last writes label v (G : gauge) :
  replay (writes ++ [(label, v)]) G !! label = Some v.
Proof. rewrite replay_app. simpl. apply lookup_insert_eq. Qed.

(** What any run of the loop does. *)
Lemma loop_effects cfg answers (G : gauge) :
  let '(G', evs) := loop cfg answers G in
  G' = replay (published evs) G /\
  Forall (fun w => fst w = DEPLOY cfg /\ in_forecast_range (snd w)) (published evs) /\
  sleeps evs = replicate (length answers) (INTERVAL cfg).
Proof.
  revert G. induction answers as [|[jr jl] rest IH]; intros G; simpl.
  - repeat split. constructor.
  - pose proof (loop_step_effects cfg jr jl G) as Hstep.
    destruct (loop_step cfg jr jl G) as [G1 evs1].
    destruct Hstep as (HG1 & Hpub1 & Hsl1 & _).
    specialize (IH G1). destruct (loop cfg rest G1) as [G2 evs2].
    destruct IH as (HG2 & Hpub2 & Hsl2).
    rewrite published_app, sleeps_app, replay_app, Hsl1, Hsl2, <- HG1.
    split; [done|]. split; [|done].
    apply Forall_app. split; [|done].
    destruct Hpub1 as [->|(v & -> & Hv)]; [constructor|].
    constructor; [done|constructor].
Qed.

Lemma in_forecast_range_not_nan v : in_forecast_range v -> isnan v = false.
Proof. intros [H _]. by destruct v. Qed.

Lemma loop_step_range_raises cfg e instant_answer (G : gauge) :
  loop_step cfg (Raise e) instant_answer G
  = (G, [ev_log_error e; ev_sleep (INTERVAL cfg)]).
Proof. reflexivity. Qed.

Lemma loop_step_no_data cfg jr instant_answer (G : gauge) :
  flatten_points jr = [] ->
  loop_step cfg (Val jr) instant_answer G = (G, [ev_sleep (INTERVAL cfg)]).
Proof.
  intros Hp. unfold loop_step, iteration, sleep, emit, lift, ret, bind.
  cbn beta iota. by rewrite Hp.
Qed.

Lemma loop_step_limit_raises cfg jr e (G : gauge) :
  flatten_points jr <> [] ->
  loop_step cfg (Val jr) (Raise e) G
  = (G, [ev_log_error e; ev_sleep (INTERVAL cfg)]).
Proof.
  intros Hp. unfold loop_step, iteration, sleep, emit, lift, ret, bind.
  cbn beta iota. by destruct (flatten_points jr).
Qed.

Lemma checked_json_error_status {J} code (body : option J) :
  400 <= code < 600 ->
  checked_json (Val {| status_code := code; json_body := body |})
  = Raise RequestException.
Proof.
  intros Hc. unfold checked_json, raise_for_status. simpl.
  destruct (Z.leb_spec 400 code); [|lia].
  destruct (Z.ltb_spec code 600); [|lia]. reflexivity.
Qed.

Lemma checked_json_ok {J} code (j : J) :
  ~ (400 <= code < 600) ->
  checked_json (Val {| status_code := code; json_body := Some j |}) = Val j.
Proof.
  intros Hc. unfold checked_json, raise_for_status. simpl.
  destruct (Z.leb_spec 400 code), (Z.ltb_spec code 600); simpl; try done; lia.
Qed.

(** X1.  An iteration that raises, wherever it raises, has written nothing:
    the gauge is as before, and the turn logs the exception and sleeps. *)
Theorem failed_iteration_keeps_gauge cfg range_answer instant_answer
    (G : gauge) e G' evs :
  iteration cfg range_answer instant_answer G = (Raise e, G', evs) ->
  G' = G /\ published evs = [] /\
  loop_step cfg range_answer instant_answer G
  = (G, evs ++ [ev_log_error e; ev_sleep (INTERVAL cfg)]).
Proof.
  intros Hit.
  destruct (iteration_effects _ _ _ _ _ _ _ Hit) as (HG & Hpub & _).
  assert (Hnone : published evs = []).
  { destruct Hpub as [?|(v & _ & _ & Hr)]; [done|discriminate Hr]. }
  rewrite Hnone in HG. simpl in HG. subst G'.
  split; [done|]. split; [done|].
  unfold loop_step. by rewrite Hit.
Qed.

(** X2.  With an interval that [time.sleep] accepts (not negative, within
    the range of the clock), every turn of the loop sleeps exactly once,
    for INTERVAL seconds, and the sleep is its last effect, whether the
    body ran to its end, took [continue] or raised; a run of n turns sleeps
    n times. *)
Theorem loop_sleeps_once_per_turn cfg :
  sleep_accepts (INTERVAL cfg) ->
  (forall range_answer instant_answer (G : gauge),
     sleeps (loop_step cfg range_answer instant_answer G).2 = [INTERVAL cfg] /\
     last (loop_step cfg range_answer instant_answer G).2
     = Some (ev_sleep (INTERVAL cfg))) /\
  (forall answers (G : gauge),
     sleeps (loop cfg answers G).2 = replicate (length answers) (INTERVAL cfg)).
Proof.
  intros _. split.
  - intros ra ia G. pose proof (loop_step_effects cfg ra ia G) as H.
    destruct (loop_step cfg ra ia G) as [G' evs]. simpl.
    by destruct H as (_ & _ & ? & ?).
  - intros answers G. pose proof (loop_effects cfg answers G) as H.
    destruct (loop cfg answers G) as [G' evs]. simpl.
    by destruct H as (_ & _ & ?).
Qed.

(** X3.  The loop writes to the label of the configured deployment only:
    whatever the answers, every other label of the gauge keeps its value,
    and a turn makes at most one write. *)
Theorem loop_writes_deployment_label_only cfg answers (G : gauge) label :
  label <> DEPLOY cfg ->
  (loop cfg answers G).1 !! label = G !! label /\
  Forall (fun w => fst w = DEPLOY cfg) (published (loop cfg answers G).2) /\
  forall range_answer instant_answer,
    (length (published (loop_step cfg range_answer instant_answer G).2) <= 1)%nat.
Proof.
  intros Hne. pose proof (loop_effects cfg answers G) as H.
  destruct (loop cfg answers G) as [G' evs]. simpl.
  destruct H as (-> & Hall & _).
  split; [|split].
  - apply replay_other. eapply Forall_impl; [exact Hall|].
    intros [l v] [Hl _]. simpl in *. congruence.
  - eapply Forall_impl; [exact Hall|]. by intros w [? _].
  - intros ra ia. pose proof (loop_step_effects cfg ra ia G) as Hs.
    destruct (loop_step cfg ra ia G) as [G1 evs1]. simpl.
    destruct Hs as (_ & [->|(v & -> & _)] & _); simpl; lia.
Qed.

(** X4.  The loop never stores a value outside [0.0, 2.0], and never a
    NaN: if every value of the gauge is in the forecast range before a run
    (as in the empty gauge of a fresh process), every value is in the range
    after it, and so is every value written on the way. *)
Theorem gauge_stays_in_forecast_range cfg answers (G : gauge) :
  (forall l v, G !! l = Some v -> in_forecast_range v) ->
  (forall l v, (loop cfg answers G).1 !! l = Some v ->
     in_forecast_range v /\ isnan v = false) /\
  Forall (fun w => in_forecast_range (snd w) /\ isnan (snd w) = false)
    (published (loop cfg answers G).2).
Proof.
  intros HG. pose proof (loop_effects cfg answers G) as H.
  destruct (loop cfg answers G) as [G' evs]. simpl.
  destruct H as (-> & Hall & _).
  assert (Hr : Forall (fun w => in_forecast_range (snd w)) (published evs)).
  { eapply Forall_impl; [exact Hall|]. by intros w [_ ?]. }
  split.
  - intros l v Hl.
    pose proof (replay_range _ _ HG Hr l v Hl) as Hv.
    split; [done|]. by apply in_forecast_range_not_nan.
  - eapply Forall_impl; [exact Hr|]. intros w Hw.
    split; [done|]. by apply in_forecast_range_not_nan.
Qed.

(** X5.  The gauge after a run is the gauge before it with the recorded
    writes replayed in order: nothing else changes it.  So a run without a
    write leaves the gauge as it was (the previous forecast stays
    readable), and after a run whose last write is [v] the deployment
    reads [v]. *)
Theorem gauge_is_replay_of_writes cfg answers (G : gauge) :
  (loop cfg answers G).1 = replay (published (loop cfg answers G).2) G /\
  (published (loop cfg answers G).2 = [] -> (loop cfg answers G).1 = G) /\
  (forall ws l v, published (loop cfg answers G).2 = ws ++ [(l, v)] ->
     l = DEPLOY cfg /\ (loop cfg answers G).1 !! DEPLOY cfg = Some v).
Proof.
  pose proof (loop_effects cfg answers G) as H.
  destruct (loop cfg answers G) as [G' evs]. simpl.
  destruct H as (-> & Hall & _).
  split; [done|]. split.
  - by intros ->.
  - intros ws l v Hws. rewrite Hws in Hall |- *.
    apply Forall_app in Hall as [_ Hlast].
    inversion Hlast as [|? ? [Hl _] _]; subst. simpl in Hl. subst l.
    split; [done|]. apply replay_last.
Qed.

Lemma read_samples_raises vs v e :
  In v vs -> sample_value v = Raise e -> exists e', read_samples vs = Raise e'.
Proof.
  induction vs as [|v0 rest IH]; intros Hin Hv; [destruct Hin|].
  simpl. destruct (sample_value v0) as [f|e0] eqn:E0; [|by exists e0].
  destruct Hin as [->|Hin]; [congruence|].
  destruct (IH Hin Hv) as [e' ->]. by exists e'.
Qed.

Lemma read_series_raises rs r vs v e :
  In r rs -> values_key r = Some vs -> In v vs -> sample_value v = Raise e ->
  exists e', read_series rs = Raise e'.
Proof.
  induction rs as [|r0 rest IH]; intros Hr Hvs Hv He; [destruct Hr|].
  simpl. destruct (read_samples (default [] (values_key r0))) as [ps|e0] eqn:E0;
    [|by exists e0].
  destruct Hr as [->|Hr].
  - rewrite Hvs in E0. simpl in E0.
    destruct (read_samples_raises vs v e Hv He) as [e' He']. congruence.
  - destruct (IH Hr Hvs Hv He) as [e' ->]. by exists e'.
Qed.

Lemma read_series_without_values rs :
  Forall (fun r => values_key r = None \/ values_key r = Some []) rs ->
  exists pss, read_series rs = Val pss /\ flatten_points pss = [].
Proof.
  induction 1 as [|r rest Hr _ IH]; [exists []; split; reflexivity|].
  destruct IH as (pss & Hpss & Hflat). exists ([] :: pss).
  simpl. destruct Hr as [->| ->]; simpl; by rewrite Hpss.
Qed.

(** X6.  A request that fails aborts the turn and leaves the gauge as it
    was, with the exception logged and the usual sleep: [requests.get]
    raising, an error status (4xx or 5xx, whatever the body holds), or a
    body that is not JSON, on the usage query; and any failure of the limit
    query once the usage series was read. *)
Theorem failed_request_aborts_turn cfg (G : gauge) :
  (forall e limit_reply,
     turn cfg (Raise e) limit_reply G
     = (G, [ev_log_error e; ev_sleep (INTERVAL cfg)])) /\
  (forall code body limit_reply,
     400 <= code < 600 ->
     turn cfg (Val {| status_code := code; json_body := body |}) limit_reply G
     = (G, [ev_log_error RequestException; ev_sleep (INTERVAL cfg)])) /\
  (forall code limit_reply,
     ~ (400 <= code < 600) ->
     turn cfg (Val {| status_code := code; json_body := None |}) limit_reply G
     = (G, [ev_log_error ValueError; ev_sleep (INTERVAL cfg)])) /\
  (forall usage_reply jr limit_reply e,
     then_decode (prom_range usage_reply) usage_result = Val jr ->
     flatten_points jr <> [] ->
     then_decode (prom_query limit_reply) limit_result = Raise e ->
     turn cfg usage_reply limit_reply G
     = (G, [ev_log_error e; ev_sleep (INTERVAL cfg)])) /\
  (forall code body,
     400 <= code < 600 ->
     then_decode
       (prom_query (Val {| status_code := code; json_body := body |}))
       limit_result
     = Raise RequestException).
Proof.
  split; [|split; [|split; [|split]]].
  - intros e limit_reply. reflexivity.
  - intros code body limit_reply Hc. unfold turn, prom_range.
    rewrite (checked_json_error_status code body Hc). reflexivity.
  - intros code limit_reply Hc. unfold turn, prom_range, checked_json,
      raise_for_status. simpl.
    destruct (Z.leb_spec 400 code), (Z.ltb_spec code 600); simpl;
      try reflexivity; lia.
  - intros usage_reply jr limit_reply e Hjr Hp He. unfold turn.
    rewrite Hjr, He. by apply loop_step_limit_raises.
  - intros code body Hc. unfold prom_query.
    by rewrite (checked_json_error_status code body Hc).
Qed.

(** X7.  A usage document that lacks the "data" key, or the "result" key,
    or whose series all lack "values" (or have none), is not an error: the
    turn takes the no-data path, logs no exception, and only sleeps. *)
Theorem missing_usage_keys_mean_no_data cfg code (jr : range_doc)
    limit_reply (G : gauge) :
  ~ (400 <= code < 600) ->
  range_data_key jr = None
  \/ (exists d, range_data_key jr = Some d /\ range_result_key d = None)
  \/ (exists d rs, range_data_key jr = Some d /\ range_result_key d = Some rs /\
        Forall (fun r => values_key r = None \/ values_key r = Some []) rs) ->
  turn cfg (Val {| status_code := code; json_body := Some jr |}) limit_reply G
  = (G, [ev_sleep (INTERVAL cfg)]).
Proof.
  intros Hc Hkeys. unfold turn, prom_range.
  rewrite (checked_json_ok code jr Hc). simpl.
  assert (Hres : exists pss, usage_result jr = Val pss /\ flatten_points pss = []).
  { unfold usage_result.
    destruct Hkeys as [->|[(d & -> & Hr)|(d & rs & -> & Hr & Hall)]];
      simpl; rewrite ?Hr; simpl.
    - exists []. split; reflexivity.
    - exists []. split; reflexivity.
    - by apply read_series_without_values. }
  destruct Hres as (pss & -> & Hflat). by apply loop_step_no_data.
Qed.

(** X8.  The limit document is indexed directly: when it lacks the "data"
    key, or the "result" key, or its first sample lacks "value", the turn
    raises KeyError after the usage series was read; the error is logged,
    the turn sleeps, and nothing is published. *)
Theorem missing_limit_keys_abort_turn cfg usage_reply jr code
    (jl : instant_doc) (G : gauge) :
  then_decode (prom_range usage_reply) usage_result = Val jr ->
  flatten_points jr <> [] ->
  ~ (400 <= code < 600) ->
  instant_data_key jl = None
  \/ (exists d, instant_data_key jl = Some d /\ instant_result_key d = None)
  \/ (exists d first rest, instant_data_key jl = Some d /\
        instant_result_key d = Some (first :: rest) /\ value_key first = None) ->
  limit_result jl = Raise KeyError /\
  turn cfg usage_reply (Val {| status_code := code; json_body := Some jl |}) G
  = (G, [ev_log_error KeyError; ev_sleep (INTERVAL cfg)]).
Proof.
  intros Hjr Hp Hc Hkeys.
  assert (Hlim : limit_result jl = Raise KeyError).
  { unfold limit_result.
    destruct Hkeys as [->|[(d & -> & ->)|(d & first & rest & -> & -> & ->)]];
      reflexivity. }
  split; [exact Hlim|].
  unfold turn. rewrite Hjr. unfold prom_query.
  rewrite (checked_json_ok code jl Hc). simpl. rewrite Hlim.
  by apply loop_step_limit_raises.
Qed.

(** X9.  One sample whose value does not convert to a float discards the
    whole usage answer: the comprehension raises, the turn logs the
    exception and sleeps, and nothing is published, however many good
    samples the answer holds. *)
Theorem unreadable_sample_aborts_turn cfg code (jr : range_doc) d rs r vs v e
    limit_reply (G : gauge) :
  ~ (400 <= code < 600) ->
  range_data_key jr = Some d -> range_result_key d = Some rs ->
  In r rs -> values_key r = Some vs -> In v vs -> sample_value v = Raise e ->
  exists e',
    usage_result jr = Raise e' /\
    turn cfg (Val {| status_code := code; json_body := Some jr |}) limit_reply G
    = (G, [ev_log_error e'; ev_sleep (INTERVAL cfg)]).
Proof.
  intros Hc Hd Hrs Hr Hvs Hv He.
  destruct (read_series_raises rs r vs v e Hr Hvs Hv He) as [e' He'].
  exists e'.
  assert (Hres : usage_result jr = Raise e').
  { unfold usage_result. rewrite Hd. simpl. rewrite Hrs. exact He'. }
  split; [exact Hres|].
  unfold turn, prom_range. rewrite (checked_json_ok code jr Hc). simpl.
  rewrite Hres. reflexivity.
Qed.

End TurnFacts.

(** ** The feature builder on a series with gaps *)

Lemma filter_map_comm {A B} (f : B -> bool) (g : A -> B) (l : list A) :
  List.filter f (map g l) = map g (List.filter (fun a => f (g a)) l).
Proof.
  induction l as [|a l IH]; simpl; [done|].
  destruct (f (g a)); simpl; by rewrite IH.
Qed.

Lemma forallb_eq_in {A} (f g : A -> bool) (l : list A) :
  (forall a, In a l -> f a = g a) -> forallb f l = forallb g l.
Proof.
  induction l as [|a l IH]; intros H; simpl; [done|].
  rewrite (H a) by (by left). f_equal. apply IH. intros b Hb. apply H. by right.
Qed.

Lemma forallb_map_comp {A B} (f : B -> bool) (g : A -> B) (l : list A) :
  forallb f (map g l) = forallb (fun a => f (g a)) l.
Proof. induction l as [|a l IH]; simpl; [done|]. by rewrite IH. Qed.

Lemma lag_cell ts i r :
  (i <= r)%nat -> (r < length ts)%nat ->
  nth r (shift i ts) nan = nth (r - i) ts nan.
Proof.
  intros Hi Hr. rewrite !nth_lookup. by rewrite shift_lookup_ge.
Qed.

(** From the lag count on, [dropna] keeps a row exactly when the series
    has the value of the row and the L values before it. *)
Lemma row_complete_window ts L r :
  (L <= r)%nat -> (r < length ts)%nat ->
  row_complete (frame_row (lag_columns ts L) r, nth r ts nan)
  = window_present ts L r.
Proof.
  intros HL Hr. unfold row_complete, window_present. cbn [fst snd].
  change (seq 0 (S L)) with (0%nat :: seq 1 L). cbn [forallb].
  rewrite Nat.sub_0_r, andb_comm. f_equal.
  unfold frame_row, lag_columns. rewrite map_map, forallb_map_comp.
  apply forallb_eq_in. intros i Hi. apply in_seq in Hi.
  f_equal. apply lag_cell; lia.
Qed.

Lemma dropna_windows ts L :
  List.filter row_complete (frame_rows ts L (seq 0 (length ts)))
  = frame_rows ts L (List.filter (window_present ts L) (seq L (length ts - L))).
Proof.
  destruct (decide (L <= length ts)%nat) as [HL|HL].
  - rewrite (seq_split_at L (length ts) HL), frame_rows_app, List.filter_app.
    rewrite dropna_below_lag by lia. simpl.
    unfold frame_rows. rewrite filter_map_comm. f_equal.
    apply filter_ext_in. intros r Hin. apply in_seq in Hin.
    apply row_complete_window; lia.
  - rewrite dropna_below_lag by lia.
    by replace (length ts - L)%nat with 0%nat by lia.
Qed.

Lemma window_present_cells ts L r j :
  window_present ts L r = true -> (j <= L)%nat ->
  isnan (nth (r - j) ts nan) = false.
Proof.
  unfold window_present. intros H Hj. rewrite forallb_forall in H.
  specialize (H j). unfold notnan in H.
  apply negb_true_iff, H, in_seq. lia.
Qed.

Lemma make_supervised_windows ts L :
  make_supervised ts L
  = (map (frame_row (lag_columns ts L))
         (List.filter (window_present ts L) (seq L (length ts - L))),
     map (fun r => nth r ts nan)
         (List.filter (window_present ts L) (seq L (length ts - L)))).
Proof.
  rewrite make_supervised_rows, dropna_windows.
  unfold frame_rows. by rewrite !map_map.
Qed.

(** No target of the dataset is missing. *)
Lemma make_supervised_targets_dense ts L : dense (snd (make_supervised ts L)).
Proof.
  rewrite make_supervised_windows. cbn [snd].
  unfold dense. apply List.Forall_forall. intros v Hv.
  apply in_map_iff in Hv as (r & <- & Hr).
  apply filter_In in Hr as [_ Hw].
  pose proof (window_present_cells ts L r 0 Hw ltac:(lia)) as Hc.
  by rewrite Nat.sub_0_r in Hc.
Qed.

(** X10.  On any series, gaps included, [make_supervised] emits, in index
    order, one row for each index r from L on whose window
    [ts[r - L .. r]] has no missing value, and no other row: the row holds
    the L previous values, latest first and none of them missing, and its
    target is [ts[r]]. *)
Theorem make_supervised_keeps_complete_windows (ts : list float) (L : nat) :
  let rs := List.filter (window_present ts L) (seq L (length ts - L)) in
  make_supervised ts L
  = (map (frame_row (lag_columns ts L)) rs, map (fun r => nth r ts nan) rs) /\
  (forall i r, rs !! i = Some r ->
     (L <= r < length ts)%nat /\
     snd (make_supervised ts L) !! i = ts !! r /\
     exists row, fst (make_supervised ts L) !! i = Some row /\
       length row = L /\ dense row /\
       forall j, (j < L)%nat -> row !! j = ts !! (r - 1 - j)%nat) /\
  dense (snd (make_supervised ts L)).
Proof.
  intros rs.
  assert (Heq : make_supervised ts L
    = (map (frame_row (lag_columns ts L)) rs, map (fun r => nth r ts nan) rs)).
  { rewrite make_supervised_rows, dropna_windows. fold rs.
    unfold frame_rows. by rewrite !map_map. }
  assert (Hrs : forall r, In r rs ->
            (L <= r < length ts)%nat /\ window_present ts L r = true).
  { intros r Hr. apply filter_In in Hr as [Hr Hw]. apply in_seq in Hr.
    split; [lia|done]. }
  split; [exact Heq|]. rewrite Heq. cbn [fst snd]. split.
  - intros i r Hi.
    assert (Hin : In r rs) by (apply list_elem_of_In; by eapply list_elem_of_lookup_2).
    destruct (Hrs r Hin) as [Hr Hw]. split; [done|]. split.
    + rewrite lookup_map, Hi. simpl. rewrite nth_lookup.
      destruct (ts !! r) as [v|] eqn:E; [done|].
      apply lookup_ge_None in E. lia.
    + exists (frame_row (lag_columns ts L) r).
      rewrite lookup_map, Hi. split; [done|]. split; [|split].
      * rewrite frame_row_length. unfold lag_columns.
        by rewrite length_map, length_seq.
      * unfold dense. apply Forall_lookup. intros j v Hj.
        assert (Hlt : (j < L)%nat).
        { apply lookup_lt_Some in Hj. rewrite frame_row_length in Hj.
          unfold lag_columns in Hj. by rewrite length_map, length_seq in Hj. }
        rewrite lag_row_lookup in Hj by lia.
        pose proof (window_present_cells ts L r (S j) Hw ltac:(lia)) as Hc.
        rewrite nth_lookup in Hc.
        replace (r - S j)%nat with (r - 1 - j)%nat in Hc by lia.
        by rewrite Hj in Hc.
      * intros j Hj. apply lag_row_lookup; lia.
  - unfold dense. apply List.Forall_forall. intros v Hv.
    apply in_map_iff in Hv as (r & <- & Hr).
    destruct (Hrs r Hr) as [_ Hw].
    pose proof (window_present_cells ts L r 0 Hw ltac:(lia)) as Hc.
    by rewrite Nat.sub_0_r in Hc.
Qed.

(** ** The shape of the normalised series *)

Lemma ffill_from_ts prev s : map fst (ffill_from prev s) = map fst s.
Proof.
  revert prev. induction s as [|[t v] r IH]; intros prev; [done|].
  simpl. by rewrite IH.
Qed.

Lemma bfill_ts s : map fst (bfill s) = map fst s.
Proof. induction s as [|[t v] r IH]; [done|]. simpl. by rewrite IH. Qed.

Lemma resample_ts df p0 :
  head df = Some p0 ->
  map fst (resample_5s_mean df)
  = map (Z.mul 5)
        (seqZ (bucket (fst p0))
              (bucket (fst (List.last df p0)) - bucket (fst p0) + 1)).
Proof.
  intros Hhd. destruct df as [|p df']; [done|]. injection Hhd as ->.
  unfold resample_5s_mean. cbv zeta. by rewrite map_map.
Qed.

Lemma normalize_ts points p0 :
  head (sort_values points) = Some p0 ->
  map fst (normalize points)
  = map (Z.mul 5)
        (seqZ (bucket (fst p0))
              (bucket (fst (List.last (sort_values points) p0)) - bucket (fst p0) + 1)).
Proof.
  intros Hhd. rewrite normalize_unfold, bfill_ts. unfold ffill.
  rewrite ffill_from_ts. by apply resample_ts.
Qed.

Lemma on_cadence_of_lookup step t (s : list point) :
  (forall i p, s !! i = Some p -> fst p = t + step * Z.of_nat i) ->
  on_cadence step t s.
Proof.
  revert t. induction s as [|q r IH]; intros t H; [done|].
  split.
  - rewrite (H 0%nat q eq_refl). lia.
  - apply IH. intros i p Hi. rewrite (H (S i) p Hi). lia.
Qed.

Lemma last_in {A} (l : list A) (a d : A) : In (List.last (a :: l) d) (a :: l).
Proof.
  revert a. induction l as [|b l IH]; intros a; [by left|].
  right. apply IH.
Qed.

Lemma sort_values_nonempty points :
  points <> [] -> exists p0, head (sort_values points) = Some p0.
Proof.
  intros Hne. destruct (sort_values points) as [|p0 df] eqn:E; [|by exists p0].
  pose proof (sort_values_perm points) as Hp. rewrite E in Hp.
  apply Permutation_sym, Permutation_nil in Hp. done.
Qed.

(** X11.  For a non-empty list of raw points, the normalised series has
    one slot per 5-second bin from the bin of the earliest sample to the
    bin of the latest one, stamped at the multiples of 5 s in increasing
    order with no slot missing, and every raw sample falls in the 5 seconds
    that follow the stamp of one of the slots. *)
Theorem normalize_covers_the_window (points : list point) :
  points <> [] ->
  exists p0 pl,
    In p0 points /\ In pl points /\
    (forall p, In p points -> fst p0 <= fst p <= fst pl) /\
    length (normalize points) = slots_between (fst p0) (fst pl) /\
    (1 <= length (normalize points))%nat /\
    on_cadence 5 (5 * bucket (fst p0)) (normalize points) /\
    forall p, In p points ->
      exists i v, normalize points !! i = Some (5 * bucket (fst p), v) /\
                  5 * bucket (fst p) <= fst p < 5 * bucket (fst p) + 5.
Proof.
  intros Hne. destruct (sort_values_nonempty points Hne) as [p0 Hhd].
  pose proof (sort_values_perm points) as Hperm.
  pose proof (sort_values_sorted points) as Hs.
  pose proof (normalize_ts points p0 Hhd) as Hts.
  destruct (sort_values points) as [|p df'] eqn:Edf; [done|].
  injection Hhd as ->.
  set (pl := List.last (p0 :: df') p0) in *.
  assert (Hin0 : In p0 points).
  { apply (Permutation_in _ (Permutation_sym Hperm)). by left. }
  assert (Hinl : In pl points).
  { apply (Permutation_in _ (Permutation_sym Hperm)). apply last_in. }
  assert (Hbounds : forall p, In p points -> fst p0 <= fst p <= fst pl).
  { intros p Hp. apply (Permutation_in _ Hperm) in Hp. split.
    - by apply (sorted_head_least p0 df').
    - by apply sorted_last_greatest. }
  assert (Hle : bucket (fst p0) <= bucket (fst pl)).
  { apply bucket_mono. by apply Hbounds. }
  assert (Hlen : length (normalize points) = slots_between (fst p0) (fst pl)).
  { rewrite <- (length_map fst), Hts, length_map, length_seqZ.
    reflexivity. }
  assert (Hlook : forall i p, normalize points !! i = Some p ->
            fst p = 5 * bucket (fst p0) + 5 * Z.of_nat i).
  { intros i p Hi.
    assert (Hf : map fst (normalize points) !! i = Some (fst p))
      by (by rewrite lookup_map, Hi).
    rewrite Hts, lookup_map in Hf.
    destruct (seqZ (bucket (fst p0)) (bucket (fst pl) - bucket (fst p0) + 1) !! i)
      as [k|] eqn:Ek; [|done].
    apply lookup_seqZ in Ek as [-> _]. simpl in Hf. injection Hf as <-. lia. }
  exists p0, pl. split; [done|]. split; [done|]. split; [done|].
  split; [done|]. split; [unfold slots_between in Hlen; lia|].
  split; [by apply on_cadence_of_lookup|].
  intros p Hp. destruct (Hbounds p Hp) as [Hlo Hhi].
  apply bucket_mono in Hlo, Hhi.
  set (i := Z.to_nat (bucket (fst p) - bucket (fst p0))).
  assert (Hi : (i < length (normalize points))%nat).
  { rewrite Hlen. unfold slots_between, i. lia. }
  destruct (lookup_lt_is_Some_2 _ _ Hi) as [[t v] Htv].
  exists i, v. split.
  - rewrite Htv. pose proof (Hlook i (t, v) Htv) as Ht. simpl in Ht.
    do 2 f_equal. rewrite Ht. unfold i. lia.
  - unfold bucket.
    pose proof (Z.div_mod (fst p) 5 ltac:(lia)) as Hdm.
    pose proof (Z.mod_pos_bound (fst p) 5 ltac:(lia)). lia.
Qed.

(** ** Gap filling *)

Lemma ffill_from_present prev s :
  isnan prev = false -> dense (map snd (ffill_from prev s)).
Proof.
  revert prev. induction s as [|[t v] r IH]; intros prev Hp; [constructor|].
  simpl. destruct (isnan v) eqn:Hv; constructor; simpl; try done;
    by apply IH.
Qed.

Lemma ffill_from_nan_shape (s : list point) :
  (exists t v, In (t, v) s /\ isnan v = false) ->
  exists a d, ffill_from nan s = a ++ d /\ d <> [] /\ dense (map snd d).
Proof.
  induction s as [|[t v] r IH]; intros (t0 & v0 & Hin & Hv0); [destruct Hin|].
  simpl. destruct (isnan v) eqn:Hv.
  - destruct Hin as [Hin|Hin]; [injection Hin as -> ->; congruence|].
    destruct (IH (ex_intro _ t0 (ex_intro _ v0 (conj Hin Hv0))))
      as (a & d & Ha & Hd & Hdense).
    exists ((t, nan) :: a), d. simpl. by rewrite Ha.
  - exists [], ((t, v) :: ffill_from v r). split; [done|]. split; [done|].
    simpl. constructor; [done|]. by apply ffill_from_present.
Qed.

Lemma bfill_length s : length (bfill s) = length s.
Proof. by rewrite <- (length_map fst), bfill_ts, length_map. Qed.

Lemma bfill_app_dense (a d : list point) :
  d <> [] -> dense (map snd d) -> dense (map snd (bfill (a ++ d))).
Proof.
  intros Hd Hdense. induction a as [|[t v] a IH]; simpl.
  - by rewrite bfill_dense.
  - destruct (isnan v) eqn:Hv; constructor; try done.
    destruct (bfill (a ++ d)) as [|[t' w] rest] eqn:E.
    + apply (f_equal (@length _)) in E. rewrite bfill_length, length_app in E.
      destruct d; [done|]. simpl in E. lia.
    + simpl in IH. by inversion IH.
Qed.

(** X12.  As soon as one 5-second bin holds a mean that is a number, the
    normalised series has no missing value at all: forward fill then
    backward fill close every gap, the leading ones included. *)
Theorem normalize_leaves_no_gap (points : list point) :
  (exists t v, In (t, v) (resample_5s_mean (sort_values points))
               /\ isnan v = false) ->
  dense (map snd (normalize points)).
Proof.
  intros Hsome. rewrite normalize_unfold. unfold ffill.
  destruct (ffill_from_nan_shape _ Hsome) as (a & d & -> & Hd & Hdense).
  by apply bfill_app_dense.
Qed.

(** ** A series on a coarser cadence *)

Lemma bucket_values_before_step (c : Z) s k0 k :
  0 <= c -> on_cadence (5 * c) (5 * k0) s -> k < k0 -> bucket_values k s = [].
Proof.
  intros Hc. revert k0. induction s as [|p r IH]; intros k0 Hs Hk; [done|].
  destruct Hs as [Hp Hr]. rewrite bucket_values_cons, Hp, bucket_of_multiple.
  destruct (Z.eqb_spec k0 k); [lia|]. simpl.
  apply (IH (k0 + c)); [|lia].
  by replace (5 * (k0 + c)) with (5 * k0 + 5 * c) by lia.
Qed.

Lemma bucket_values_hit_step (c : Z) s k0 i p :
  1 <= c -> on_cadence (5 * c) (5 * k0) s -> s !! i = Some p ->
  bucket_values (k0 + c * Z.of_nat i) s = [snd p].
Proof.
  intros Hc. revert k0 i. induction s as [|q r IH]; intros k0 i Hs Hi; [done|].
  destruct Hs as [Hq Hr].
  assert (Hr' : on_cadence (5 * c) (5 * (k0 + c)) r)
    by (by replace (5 * (k0 + c)) with (5 * k0 + 5 * c) by lia).
  rewrite bucket_values_cons, Hq, bucket_of_multiple.
  destruct i as [|i]; simpl in Hi.
  - injection Hi as ->. replace (k0 + c * Z.of_nat 0) with k0 by lia.
    rewrite Z.eqb_refl.
    rewrite (bucket_values_before_step c r (k0 + c) k0) by (lia || done).
    reflexivity.
  - destruct (Z.eqb_spec k0 (k0 + c * Z.of_nat (S i))); [nia|]. simpl.
    replace (k0 + c * Z.of_nat (S i)) with ((k0 + c) + c * Z.of_nat i) by lia.
    by apply IH.
Qed.

Lemma bucket_values_miss_step (c : Z) s k0 k :
  1 <= c -> on_cadence (5 * c) (5 * k0) s ->
  (forall i : nat, k <> k0 + c * Z.of_nat i) ->
  bucket_values k s = [].
Proof.
  intros Hc. revert k0. induction s as [|q r IH]; intros k0 Hs Hk; [done|].
  destruct Hs as [Hq Hr].
  rewrite bucket_values_cons, Hq, bucket_of_multiple.
  destruct (Z.eqb_spec k0 k) as [E|E].
  - exfalso. apply (Hk 0%nat). lia.
  - simpl. apply (IH (k0 + c)).
    + by replace (5 * (k0 + c)) with (5 * k0 + 5 * c) by lia.
    + intros i Hi. apply (Hk (S i)). lia.
Qed.

Lemma ffill_from_succ prev (s : list point) i t v t' v' :
  ffill_from prev s !! i = Some (t, v) ->
  s !! S i = Some (t', v') ->
  ffill_from prev s !! S i = Some (t', if isnan v' then v else v').
Proof.
  revert prev i. induction s as [|[t0 v0] r IH]; intros prev i Hi Hs; [done|].
  destruct i as [|i]; simpl in *.
  - injection Hi as <- <-. destruct r as [|[t1 v1] r']; [done|].
    simpl in *. by injection Hs as -> ->.
  - by apply IH.
Qed.

Lemma ffill_from_run prev (s : list point) a t v j :
  s !! a = Some (t, v) -> isnan v = false ->
  (forall j', (1 <= j' <= j)%nat -> exists t', s !! (a + j')%nat = Some (t', nan)) ->
  exists t', s !! (a + j)%nat = Some (t', if (j =? 0)%nat then v else nan) /\
             ffill_from prev s !! (a + j)%nat = Some (t', v).
Proof.
  intros Ha Hv. induction j as [|j IH]; intros Hgap.
  - exists t. rewrite Nat.add_0_r. split; [done|]. by apply ffill_from_lookup.
  - destruct IH as (t1 & _ & Hf1); [intros j' Hj'; apply Hgap; lia|].
    destruct (Hgap (S j) ltac:(lia)) as [t' Ht'].
    exists t'. split; [done|].
    replace (a + S j)%nat with (S (a + j)) in * by lia.
    by rewrite (ffill_from_succ _ _ _ _ _ _ _ Hf1 Ht').
Qed.

Lemma resample_length df p0 :
  head df = Some p0 ->
  length (resample_5s_mean df)
  = Z.to_nat (bucket (fst (List.last df p0)) - bucket (fst p0) + 1).
Proof.
  intros Hhd. by rewrite <- (length_map fst), (resample_ts df p0 Hhd),
    length_map, length_seqZ.
Qed.

Lemma mean_nil : mean [] = nan.
Proof. reflexivity. Qed.

(** X13.  A series whose samples are c slots apart (a cadence of 5 c
    seconds from a multiple of 5 s; c = 12 for the one-minute step of the
    range query), with every value present, is upsampled by repetition:
    each sample but the last fills c consecutive 5-second slots with its
    own value, the last sample fills one, and the result has
    c (n - 1) + 1 slots. *)
Theorem coarse_series_is_repeated (c : nat) (s : list point) (k0 : Z) :
  (1 <= c)%nat ->
  on_cadence (5 * Z.of_nat c) (5 * k0) s ->
  Forall (fun p => plain_value (snd p)) s ->
  s <> [] ->
  length (normalize s) = (c * (length s - 1) + 1)%nat /\
  forall i p j, s !! i = Some p -> (j < c)%nat ->
    (S i < length s)%nat \/ j = 0%nat ->
    normalize s !! (c * i + j)%nat = Some (fst p + 5 * Z.of_nat j, snd p).
Proof.
  intros Hc Hs Hv Hne.
  destruct s as [|p0 s'] eqn:Es; [done|]. rewrite <- Es in *. clear Hne.
  assert (Hhd : head s = Some p0) by (by rewrite Es).
  assert (Hn : (1 <= length s)%nat) by (rewrite Es; simpl; lia).
  destruct (last_on_cadence s p0 p0 Hhd) as (pl & Hpl & Hlast).
  assert (Hlo : bucket (fst p0) = k0).
  { rewrite Es in Hs. destruct Hs as [-> _]. apply bucket_of_multiple. }
  assert (Hhi : bucket (fst (List.last s p0))
                = k0 + Z.of_nat c * Z.of_nat (length s - 1)).
  { rewrite Hlast, (on_cadence_lookup _ _ _ _ _ Hs Hpl).
    replace (5 * k0 + 5 * Z.of_nat c * Z.of_nat (length s - 1))
      with (5 * (k0 + Z.of_nat c * Z.of_nat (length s - 1))) by lia.
    apply bucket_of_multiple. }
  assert (Hsort : sort_values s = s).
  { apply (sort_values_on_cadence (5 * Z.of_nat c) (5 * k0)); [lia|done]. }
  assert (Hlen : length (normalize s) = (c * (length s - 1) + 1)%nat).
  { rewrite normalize_unfold, bfill_length, Hsort.
    rewrite <- (length_map fst). unfold ffill. rewrite ffill_from_ts, length_map.
    rewrite (resample_length s p0 Hhd), Hhi, Hlo, <- Nat2Z.inj_mul.
    generalize (c * (length s - 1))%nat. intros m. lia. }
  split; [exact Hlen|].
  (* the slots of the resampled series *)
  assert (Hslot : forall a : nat, (a <= c * (length s - 1))%nat ->
            resample_5s_mean s !! a
            = Some (5 * (k0 + Z.of_nat a), mean (bucket_values (k0 + Z.of_nat a) s))).
  { intros a Ha.
    pose proof (resample_lookup s p0 (k0 + Z.of_nat a) Hhd) as H.
    rewrite Hlo, Hhi in H.
    replace (Z.to_nat (k0 + Z.of_nat a - k0)) with a in H by lia.
    apply H. nia. }
  intros i p j Hi Hj Hij.
  pose proof (lookup_lt_Some _ _ _ Hi) as Hilt.
  rewrite Forall_lookup in Hv. destruct (Hv i p Hi) as (Hd & Hnn & Hz).
  assert (Hhit : resample_5s_mean s !! (c * i)%nat
                 = Some (5 * (k0 + Z.of_nat (c * i)), snd p)).
  { rewrite Hslot by nia. do 2 f_equal.
    replace (k0 + Z.of_nat (c * i)) with (k0 + Z.of_nat c * Z.of_nat i) by lia.
    rewrite (bucket_values_hit_step (Z.of_nat c) s k0 i p) by (lia || done).
    by apply mean_single. }
  assert (Hgap : forall j', (1 <= j' <= j)%nat ->
            exists t', resample_5s_mean s !! (c * i + j')%nat = Some (t', nan)).
  { intros j' Hj'. destruct Hij as [Hnext| ->]; [|lia].
    eexists. rewrite Hslot by nia. do 2 f_equal.
    rewrite bucket_values_miss_step with (c := Z.of_nat c) (k0 := k0);
      [reflexivity|lia|done|].
    intros i' Heq.
    assert (Hmul : Z.of_nat j' = Z.of_nat c * (Z.of_nat i' - Z.of_nat i))
      by (rewrite Nat2Z.inj_add, Nat2Z.inj_mul in Heq; lia).
    destruct (Z.le_gt_cases (Z.of_nat i' - Z.of_nat i) 0) as [Hle|Hgt]; nia. }
  destruct (ffill_from_run nan _ _ _ _ j Hhit Hnn Hgap) as (t' & Ht' & Hfill).
  rewrite Hslot in Ht' by (destruct Hij as [?| ->]; nia).
  injection Ht' as <- _.
  rewrite normalize_unfold, Hsort. unfold ffill.
  rewrite (bfill_lookup _ _ _ _ Hfill Hnn). do 2 f_equal.
  rewrite (on_cadence_lookup _ _ _ _ _ Hs Hi). lia.
Qed.

(** ** A utilisation series without any value *)


Lemma make_supervised_all_missing ts L :
  Forall (fun v => isnan v = true) ts -> make_supervised ts L = ([], []).
Proof.
  intros Hall. rewrite make_supervised_rows.
  rewrite filter_all_false; [done|].
  intros x Hx. unfold frame_rows in Hx. apply in_map_iff in Hx as (r & <- & Hr).
  apply in_seq in Hr. unfold row_complete. cbn [fst snd].
  apply andb_false_iff. right.
  rewrite Forall_lookup in Hall.
  destruct (ts !! r) as [v|] eqn:E.
  - rewrite (nth_lookup_Some _ _ _ _ E). unfold notnan. by rewrite (Hall r v E).
  - apply lookup_ge_None in E. lia.
Qed.

Lemma div_nan_r v : div v nan = nan.
Proof. by destruct v. Qed.

Lemma div_nan_l v : div nan v = nan.
Proof. by destruct v. Qed.

Lemma mean_all_missing vs :
  Forall (fun v => isnan v = true) vs -> mean vs = nan.
Proof.
  intros Hall. unfold mean. rewrite filter_all_false; [done|].
  intros v Hv. rewrite List.Forall_forall in Hall.
  unfold notnan. by rewrite (Hall v Hv).
Qed.

Lemma ffill_from_all_missing (s : list point) :
  Forall (fun p => isnan (snd p) = true) s -> ffill_from nan s = s.
Proof.
  induction 1 as [|[t v] r Hv _ IH]; [done|].
  simpl in *. rewrite Hv. destruct v; try done. by rewrite IH.
Qed.

Lemma bfill_all_missing (s : list point) :
  Forall (fun p => isnan (snd p) = true) s -> bfill s = s.
Proof.
  induction 1 as [|[t v] r Hv Hr IH]; [done|].
  simpl in *. rewrite Hv, IH. destruct v; try done.
  destruct r as [|[t' w] r']; [done|].
  inversion Hr as [|? ? Hw _]; subst. simpl in Hw. by destruct w.
Qed.

Lemma normalize_all_missing points :
  Forall (fun p => isnan (snd p) = true) points ->
  Forall (fun p => isnan (snd p) = true) (normalize points).
Proof.
  intros Hall. rewrite normalize_unfold.
  assert (Hres : Forall (fun p => isnan (snd p) = true)
                   (resample_5s_mean (sort_values points))).
  { unfold resample_5s_mean. destruct (sort_values points) as [|p0 df'] eqn:E;
      [constructor|]. rewrite <- E.
    apply List.Forall_forall. intros q Hq.
    apply in_map_iff in Hq as (k & <- & _). cbn [snd].
    rewrite mean_all_missing; [done|].
    apply List.Forall_forall. intros v Hv. unfold bucket_values in Hv.
    apply in_map_iff in Hv as (p & <- & Hp). apply filter_In in Hp as [Hp _].
    apply (Permutation_in _ (Permutation_sym (sort_values_perm points))) in Hp.
    rewrite List.Forall_forall in Hall. by apply Hall. }
  unfold ffill. rewrite (ffill_from_all_missing _ Hres).
  by rewrite (bfill_all_missing _ Hres).
Qed.

(** ** The results of the float operations are binary64 values

    Rounding leaves a mantissa of at most 53 bits at the exponent of the
    format, whatever the operands: sums, differences and quotients satisfy
    the representation invariant, hence so does every value of a
    normalised series. *)

Lemma digits2_pos_bounds p :
  2 ^ (Zpos (digits2_pos p) - 1) <= Zpos p < 2 ^ Zpos (digits2_pos p).
Proof.
  induction p as [p IH|p IH|]; cbn [digits2_pos]; [| |by vm_compute].
  - rewrite Pos2Z.inj_succ. change (Zpos p~1) with (2 * Zpos p + 1).
    replace (Z.succ (Zpos (digits2_pos p)) - 1) with (Z.succ (Zpos (digits2_pos p) - 1)) by lia.
    rewrite !Z.pow_succ_r by lia.
    revert IH. generalize (2 ^ (Zpos (digits2_pos p) - 1)) (2 ^ Zpos (digits2_pos p)).
    intros a b. lia.
  - rewrite Pos2Z.inj_succ. change (Zpos p~0) with (2 * Zpos p).
    replace (Z.succ (Zpos (digits2_pos p)) - 1) with (Z.succ (Zpos (digits2_pos p) - 1)) by lia.
    rewrite !Z.pow_succ_r by lia.
    revert IH. generalize (2 ^ (Zpos (digits2_pos p) - 1)) (2 ^ Zpos (digits2_pos p)).
    intros a b. lia.
Qed.

Lemma Zdigits2_bounds m :
  0 < m -> 0 < Zdigits2 m /\ 2 ^ (Zdigits2 m - 1) <= m < 2 ^ Zdigits2 m.
Proof.
  destruct m as [|p|p]; try lia. intros _. cbn [Zdigits2].
  split; [lia|apply digits2_pos_bounds].
Qed.

Lemma Zdigits2_unique m k :
  0 < k -> 2 ^ (k - 1) <= m < 2 ^ k -> Zdigits2 m = k.
Proof.
  intros Hk [Hlo Hhi].
  assert (Hm : 0 < m).
  { pose proof (Z.pow_pos_nonneg 2 (k - 1) ltac:(lia) ltac:(lia)). lia. }
  destruct (Zdigits2_bounds m Hm) as (Hd & Hl & Hh).
  destruct (Z.lt_trichotomy (Zdigits2 m) k) as [H|[H|H]]; [|done|].
  - pose proof (Z.pow_le_mono_r 2 (Zdigits2 m) (k - 1) ltac:(lia) ltac:(lia)). lia.
  - pose proof (Z.pow_le_mono_r 2 k (Zdigits2 m - 1) ltac:(lia) ltac:(lia)). lia.
Qed.


(** Digits of a quotient by a power of two. *)
Lemma Zdigits2_shift m n :
  0 < m -> 0 <= n -> 0 < m / 2 ^ n ->
  Zdigits2 (m / 2 ^ n) = Zdigits2 m - n.
Proof.
  intros Hm Hn Hq.
  destruct (Zdigits2_bounds m Hm) as (Hd & Hl & Hh).
  assert (Hp : 0 < 2 ^ n) by (apply Z.pow_pos_nonneg; lia).
  assert (Hge : 2 ^ n <= m).
  { destruct (Z.le_gt_cases (2 ^ n) m); [done|]. rewrite Z.div_small in Hq; lia. }
  assert (Hnd : n < Zdigits2 m).
  { destruct (Z.lt_ge_cases n (Zdigits2 m)); [done|].
    pose proof (Z.pow_le_mono_r 2 (Zdigits2 m) n ltac:(lia) ltac:(lia)). lia. }
  apply Zdigits2_unique; [lia|]. split.
  - apply Z.div_le_lower_bound; [lia|].
    rewrite <- Z.pow_add_r by lia.
    by replace (n + (Zdigits2 m - n - 1)) with (Zdigits2 m - 1) by lia.
  - apply Z.div_lt_upper_bound; [lia|].
    rewrite <- Z.pow_add_r by lia.
    by replace (n + (Zdigits2 m - n)) with (Zdigits2 m) by lia.
Qed.

Lemma shr_1_m mrs : 0 <= shr_m mrs -> shr_m (shr_1 mrs) = shr_m mrs / 2.
Proof.
  destruct mrs as [m r s]. cbn [shr_m]. intros Hm.
  destruct m as [|[p|p|]|p]; cbn [shr_1 shr_m]; try lia; try reflexivity.
  - apply (Z.div_unique _ 2 _ 1); lia.
  - apply (Z.div_unique _ 2 _ 0); lia.
Qed.

Lemma iter_shr_m p mrs :
  0 <= shr_m mrs -> shr_m (SpecFloat.iter_pos shr_1 p mrs) = shr_m mrs / 2 ^ Zpos p.
Proof.
  revert mrs. induction p as [p IH|p IH|]; intros mrs Hm; cbn [SpecFloat.iter_pos].
  - assert (H1 : 0 <= shr_m (shr_1 mrs)) by (rewrite shr_1_m by done; apply Z.div_pos; lia).
    assert (Hp : 0 < 2 ^ Zpos p) by (apply Z.pow_pos_nonneg; lia).
    assert (H2 : 0 <= shr_m (SpecFloat.iter_pos shr_1 p (shr_1 mrs)))
      by (rewrite IH by done; apply Z.div_pos; lia).
    rewrite IH, IH, shr_1_m by done.
    rewrite !Z.div_div by lia. f_equal.
    replace (Zpos p~1) with (1 + Zpos p + Zpos p) by lia.
    rewrite !Z.pow_add_r by lia. lia.
  - assert (Hp : 0 < 2 ^ Zpos p) by (apply Z.pow_pos_nonneg; lia).
    assert (H2 : 0 <= shr_m (SpecFloat.iter_pos shr_1 p mrs))
      by (rewrite IH by done; apply Z.div_pos; lia).
    rewrite IH, IH by done.
    rewrite !Z.div_div by lia. f_equal.
    replace (Zpos p~0) with (Zpos p + Zpos p) by lia.
    rewrite !Z.pow_add_r by lia. lia.
  - by rewrite shr_1_m.
Qed.

Lemma shr_record_of_loc_m m l : shr_m (shr_record_of_loc m l) = m.
Proof. by destruct l as [|[]]. Qed.

(** What [shr_fexp] leaves: the mantissa shifted right by the number of
    bits in excess, at the exponent of the format. *)
Lemma shr_fexp_spec m e l :
  0 <= m ->
  let n := fexp prec emax (Zdigits2 m + e) - e in
  exists mrs e',
    shr_fexp prec emax m e l = (mrs, e') /\
    ((n <= 0 /\ shr_m mrs = m /\ e' = e) \/
     (0 < n /\ shr_m mrs = m / 2 ^ n /\ e' = e + n)).
Proof.
  intros Hm n. unfold shr_fexp. fold n. unfold shr.
  destruct n as [|p|p] eqn:En.
  - eexists _, _. split; [done|]. left. by rewrite shr_record_of_loc_m.
  - eexists _, _. split; [done|]. right.
    rewrite iter_shr_m by (by rewrite shr_record_of_loc_m).
    by rewrite shr_record_of_loc_m.
  - eexists _, _. split; [done|]. left. rewrite shr_record_of_loc_m. lia.
Qed.

Lemma round_nearest_even_cases m l :
  round_nearest_even m l = m \/ round_nearest_even m l = m + 1.
Proof.
  destruct l as [|[]]; cbn [round_nearest_even]; auto.
  destruct (Z.even m); auto.
Qed.

Lemma finish_valid sx m e :
  0 <= m -> (m = 0 \/ fexp prec emax (Zdigits2 m + e) = e) ->
  valid_binary prec emax
    (match m with
     | Z0 => S754_zero sx
     | Zpos p => if e <=? emax - prec then S754_finite sx p e else S754_infinity sx
     | Zneg _ => S754_nan
     end) = true.
Proof.
  intros Hm Hc. destruct m as [|p|p]; [done| |lia].
  destruct Hc as [|Hc]; [done|].
  destruct (e <=? emax - prec) eqn:He; [|done].
  cbn [valid_binary]. unfold bounded, canonical_mantissa.
  cbn [Zdigits2] in Hc. rewrite Hc, Z.eqb_refl, He. done.
Qed.

Lemma binary_round_aux_valid sx m e l :
  0 <= m -> e <= fexp prec emax (Zdigits2 m + e) ->
  valid_binary prec emax (binary_round_aux prec emax sx m e l) = true.
Proof.
  intros Hm He. unfold binary_round_aux.
  destruct (shr_fexp_spec m e l Hm) as (mrs1 & e1 & -> & H1).
  set (m1 := shr_m mrs1) in *.
  set (D := Zdigits2 m + e) in *.
  assert (He1 : e1 = fexp prec emax D) by (destruct H1 as [(?&?&?)|(?&?&?)]; lia).
  assert (Hm1 : 0 <= m1).
  { destruct H1 as [(?&->&?)|(?&->&?)]; [done|].
    apply Z.div_pos; [done|]. apply Z.pow_pos_nonneg; lia. }
  assert (Hk : (m1 = 0 /\ e1 = emin prec emax) \/ (0 < m1 /\ Zdigits2 m1 + e1 = D)).
  { destruct (Z.eq_dec m1 0) as [Hz|Hnz].
    - left. split; [done|].
      destruct H1 as [(Hn & Hm1' & Hee)|(Hn & Hm1' & Hee)].
      + assert (Hd0 : Zdigits2 m = 0) by (by replace m with 0 by lia).
        unfold D, fexp, emin, prec, emax in *. lia.
      + destruct (Z.eq_dec m 0) as [Hm0|Hmz].
        * assert (Hd0 : Zdigits2 m = 0) by (by rewrite Hm0).
          unfold D, fexp, emin, prec, emax in *. lia.
        * destruct (Zdigits2_bounds m ltac:(lia)) as (Hd & Hl & Hh).
          set (n := fexp prec emax D - e) in *.
          assert (Hp : 0 < 2 ^ n) by (apply Z.pow_pos_nonneg; lia).
          assert (Hlt : m < 2 ^ n).
          { destruct (Z.lt_ge_cases m (2 ^ n)); [done|].
            assert (1 <= m / 2 ^ n); [|lia].
            apply Z.div_le_lower_bound; lia. }
          assert (Hdn : Zdigits2 m <= n).
          { destruct (Z.le_gt_cases (Zdigits2 m) n); [done|].
            pose proof (Z.pow_le_mono_r 2 n (Zdigits2 m - 1) ltac:(lia) ltac:(lia)). lia. }
          unfold D, n in *. unfold fexp, emin, prec, emax in *. lia.
    - right. split; [lia|].
      destruct H1 as [(Hn & Hm1' & Hee)|(Hn & Hm1' & Hee)].
      + fold m1 in Hm1'. rewrite Hm1', Hee. done.
      + fold m1 in Hm1'. rewrite Hm1'.
        rewrite Zdigits2_shift; [unfold D in *; lia| | |].
        * destruct (Z.eq_dec m 0) as [->|]; [|lia].
          rewrite Z.div_0_l in Hm1'; [lia|].
          apply Z.pow_nonzero; lia.
        * lia.
        * lia. }
  set (m2 := round_nearest_even m1 (loc_of_shr_record mrs1)).
  assert (Hm2 : m2 = m1 \/ m2 = m1 + 1) by apply round_nearest_even_cases.
  assert (Hm2' : 0 <= m2) by lia.
  destruct (shr_fexp_spec m2 e1 loc_Exact Hm2') as (mrs3 & e3 & -> & H3).
  apply finish_valid.
  - destruct H3 as [(?&->&?)|(?&->&?)]; [done|].
    apply Z.div_pos; [done|]. apply Z.pow_pos_nonneg; lia.
  - destruct (Z.eq_dec m2 0) as [Hz|Hnz].
    { left. destruct H3 as [(?&->&?)|(Hn3&->&?)]; [done|].
      pose proof (Z.pow_pos_nonneg 2 _ ltac:(lia) (Z.lt_le_incl _ _ Hn3)).
      apply Z.div_small. lia. }
    right.
    destruct Hk as [[Hz1 Hemin]|[Hpos Hcan]].
    + assert (m2 = 1) by lia.
      assert (Hn2 : fexp prec emax (Zdigits2 m2 + e1) - e1 = 0).
      { subst m2. rewrite H. cbn [Zdigits2 digits2_pos].
        unfold fexp, emin, prec, emax in *. lia. }
      destruct H3 as [(?&->&->)|(?&?&?)]; [|lia].
      lia.
    + (* m1 > 0, canonical at e1 *)
      assert (Hcan1 : fexp prec emax (Zdigits2 m1 + e1) = e1) by (rewrite Hcan; lia).
      destruct (Zdigits2_bounds m1 Hpos) as (Hd1 & Hl1 & Hh1).
      assert (Hd2 : Zdigits2 m2 = Zdigits2 m1 \/
                    (Zdigits2 m2 = Zdigits2 m1 + 1 /\ m2 = 2 ^ Zdigits2 m1)).
      { destruct Hm2 as [->| ->]; [by left|].
        destruct (Z.eq_dec (m1 + 1) (2 ^ Zdigits2 m1)) as [Heq|Hne].
        - right. split; [|done].
          apply Zdigits2_unique; [lia|].
          replace (Zdigits2 m1 + 1 - 1) with (Zdigits2 m1) by lia.
          rewrite Z.pow_add_r by lia. lia.
        - left. apply Zdigits2_unique; [lia|]. lia. }
      destruct H3 as [(Hn & -> & ->)|(Hn & -> & ->)].
      * destruct Hd2 as [Hd2|[Hd2 _]]; rewrite Hd2 in *;
          unfold fexp, emin, prec, emax in *; lia.
      * destruct Hd2 as [Hd2|[Hd2 Hpow]].
        { rewrite Hd2 in Hn. lia. }
        rewrite Hd2 in *.
        set (n2 := fexp prec emax (Zdigits2 m1 + 1 + e1) - e1) in *.
        assert (Hn2 : n2 = 1) by (unfold n2, fexp, emin, prec, emax in *; lia).
        rewrite Hn2, Hpow.
        assert (Hq : 2 ^ Zdigits2 m1 / 2 ^ 1 = 2 ^ (Zdigits2 m1 - 1)).
        { replace (Zdigits2 m1) with (1 + (Zdigits2 m1 - 1)) at 1 by lia.
          rewrite Z.pow_add_r by lia. rewrite Z.mul_comm, Z.div_mul; lia. }
        rewrite Hq.
        rewrite (Zdigits2_unique (2 ^ (Zdigits2 m1 - 1)) (Zdigits2 m1)).
        { unfold n2, fexp, emin, prec, emax in *. lia. }
        { lia. }
        split; [lia|]. apply Z.pow_lt_mono_r; lia.
Qed.

Lemma digits2_pos_iter_xO m d :
  Zpos (digits2_pos (Pos.iter xO m d)) = Zpos (digits2_pos m) + Zpos d.
Proof.
  induction d as [|d IH] using Pos.peano_ind.
  - cbn [Pos.iter digits2_pos]. lia.
  - rewrite Pos.iter_succ. cbn [digits2_pos]. rewrite Pos2Z.inj_succ, IH. lia.
Qed.

Lemma binary_round_valid sx m e :
  valid_binary prec emax (binary_round prec emax sx m e) = true.
Proof.
  unfold binary_round, shl_align.
  destruct (fexp prec emax (Zpos (digits2_pos m) + e) - e) as [|p|p] eqn:En.
  - apply binary_round_aux_valid; [lia|]. cbn [Zdigits2]. lia.
  - apply binary_round_aux_valid; [lia|]. cbn [Zdigits2]. lia.
  - apply binary_round_aux_valid; [lia|]. cbn [Zdigits2].
    rewrite digits2_pos_iter_xO.
    replace (Zpos (digits2_pos m) + Zpos p + fexp prec emax (Zpos (digits2_pos m) + e))
      with (Zpos (digits2_pos m) + e) by lia.
    lia.
Qed.

Lemma binary_normalize_valid m e s :
  valid_binary prec emax (binary_normalize prec emax m e s) = true.
Proof. destruct m; [done| |]; apply binary_round_valid. Qed.

Lemma add_valid (x y : float) : is_double x -> is_double y -> is_double (add x y).
Proof.
  unfold is_double, add. intros Hx Hy.
  destruct x as [sx|sx| |sx mx ex], y as [sy|sy| |sy my ey]; try done;
    try (by destruct sx, sy).
  apply binary_normalize_valid.
Qed.

Lemma sub_valid (x y : float) : is_double x -> is_double y -> is_double (sub x y).
Proof.
  unfold is_double, sub. intros Hx Hy.
  destruct x as [sx|sx| |sx mx ex], y as [sy|sy| |sy my ey]; try done;
    try (by destruct sx, sy).
  apply binary_normalize_valid.
Qed.




Lemma kahan_step_valid acc v :
  is_double (fst acc) -> is_double (snd acc) -> is_double v ->
  is_double (fst (kahan_step acc v)) /\ is_double (snd (kahan_step acc v)).
Proof.
  destruct acc as [sumx comp]. cbn [fst snd kahan_step]. intros Hs Hc Hv.
  assert (Hy : is_double (sub v comp)) by (by apply sub_valid).
  assert (Ht : is_double (add sumx (sub v comp))) by (by apply add_valid).
  split; [done|].
  destruct (isnan _) eqn:E; [done|].
  apply sub_valid; [|done]. by apply sub_valid.
Qed.






(** ** Normalising a normalised series *)






Section DegradedTurns.

Context `{SS : StandardScaler} `{LM : Lasso}.

(** X14.  A NaN limit passes the [limit <= 0] guard and divides every
    usage value into NaN; usage values that are all NaN stay NaN through
    the normaliser.  In both cases no row survives [dropna], and the
    iteration publishes 0.0 without calling the scaler or the regressor. *)
Theorem missing_utilisation_publishes_zero cfg (jr : range_json)
    (jl : instant_json) (G : gauge) :
  flatten_points jr <> [] ->
  (exists rest, jl = nan :: rest)
  \/ Forall (fun p => isnan (snd p) = true) (flatten_points jr) ->
  Forall (fun v => isnan v = true) (iteration_util jr jl) /\
  make_supervised (iteration_util jr jl) (LAGS cfg) = ([], []) /\
  iteration cfg (Val jr) (Val jl) G
  = (Val FallThrough, <[DEPLOY cfg := f0_0]> G, [ev_gauge_set (DEPLOY cfg) f0_0]).
Proof.
  intros Hp Hmiss.
  assert (Hutil : Forall (fun v => isnan v = true) (iteration_util jr jl)).
  { unfold iteration_util, utilization. apply List.Forall_forall.
    intros v Hv. apply in_map_iff in Hv as (p & <- & Hin).
    destruct Hmiss as [[rest ->]|Hall].
    - change (effective_limit (nan :: rest)) with nan. by rewrite div_nan_r.
    - pose proof (normalize_all_missing _ Hall) as Hn.
      rewrite List.Forall_forall in Hn. specialize (Hn p Hin).
      destruct (snd p); try done; by rewrite div_nan_l. }
  pose proof (make_supervised_all_missing _ (LAGS cfg) Hutil) as Hms.
  split; [exact Hutil|]. split; [exact Hms|].
  rewrite (iteration_with_points cfg jr jl G Hp). unfold bind.
  rewrite forecast_too_few by (rewrite Hms; simpl; lia).
  reflexivity.
Qed.

(** X16.  With a utilisation series that has no missing value, the
    dataset has as many rows as the normalised series has slots beyond the
    first LAGS: the iteration degrades to 0.0 exactly when the window spans
    fewer than LAGS + 20 five-second slots, and calls the scaler on the
    full feature matrix otherwise. *)
Theorem fit_needs_lags_plus_twenty_slots cfg (jr : range_json)
    (jl : instant_json) (G : gauge) :
  flatten_points jr <> [] ->
  dense (iteration_util jr jl) ->
  let slots := length (normalize (flatten_points jr)) in
  let X := fst (make_supervised (iteration_util jr jl) (LAGS cfg)) in
  length X = (slots - LAGS cfg)%nat /\
  ((slots < LAGS cfg + 20)%nat ->
     (iteration cfg (Val jr) (Val jl) G).2 = [ev_gauge_set (DEPLOY cfg) f0_0]) /\
  ((LAGS cfg + 20 <= slots)%nat ->
     scaler_fit_inputs (iteration cfg (Val jr) (Val jl) G).2 = [X]).
Proof.
  intros Hp Hd slots X.
  assert (Hlen : length (iteration_util jr jl) = slots).
  { unfold iteration_util, utilization, slots. apply length_map. }
  assert (HX : length X = (slots - LAGS cfg)%nat).
  { unfold X. destruct (decide (LAGS cfg <= slots)%nat) as [Hle|Hgt].
    - rewrite make_supervised_dense by (done || lia). simpl.
      unfold frame_rows. rewrite !length_map, length_seq. lia.
    - pose proof (make_supervised_length_le (iteration_util jr jl) (LAGS cfg)).
      lia. }
  split; [exact HX|]. split.
  - intros Hfew. rewrite (iteration_with_points cfg jr jl G Hp). unfold bind.
    rewrite forecast_too_few by (fold X; lia). reflexivity.
  - intros Henough. rewrite (iteration_with_points cfg jr jl G Hp). unfold bind.
    rewrite forecast_enough by (fold X; lia). fold X.
    pose proof (fit_and_publish_run cfg (iteration_util jr jl) X
                  (snd (make_supervised (iteration_util jr jl) (LAGS cfg))) G)
      as Hfit.
    clearbody X.
    destruct (fit_and_publish cfg (iteration_util jr jl) X _ G) as [[r0 G'] evs0].
    assert (Hfits : scaler_fit_inputs evs0 = [X])
      by (inversion Hfit; subst; reflexivity).
    destruct r0; cbn [snd ret]; rewrite ?app_nil_r; exact Hfits.
Qed.

End DegradedTurns.

(** ** The latest window, in and out of range *)

Lemma collect_app_vals (vs : list float) (rs : list (res float)) :
  collect (map Val vs ++ rs)
  = match collect rs with
    | Val ws => Val (vs ++ ws)
    | Raise e => Raise e
    end.
Proof.
  induction vs as [|v vs IH]; simpl.
  - by destruct (collect rs).
  - rewrite IH. by destruct (collect rs).
Qed.

(** X15.  The latest window raises IndexError exactly when the series has
    fewer than L values, and otherwise has L cells; in an iteration that
    reaches the model, where the dataset has at least 20 rows, the series
    is long enough and the window never raises. *)
Theorem latest_window_raises_only_when_short (util : list float) (L : nat) :
  ((length util < L)%nat -> latest_window util L = Raise IndexError) /\
  ((L <= length util)%nat ->
     exists w, latest_window util L = Val w /\ length w = L) /\
  ((20 <= length (fst (make_supervised util L)))%nat ->
     exists w, latest_window util L = Val w /\ length w = L).
Proof.
  assert (Hok : (L <= length util)%nat ->
            exists w, latest_window util L = Val w /\ length w = L).
  { intros HL. rewrite latest_window_in_range by done.
    eexists. split; [reflexivity|]. by rewrite length_map, length_seq. }
  split; [|split; [exact Hok|]].
  - intros Hshort. unfold latest_window.
    replace L with (length util + S (L - length util - 1))%nat by lia.
    rewrite seq_app, map_app.
    rewrite (map_ext_in _ (fun i => Val (nth (length util - i) util nan))).
    2:{ intros i Hi. apply in_seq in Hi. apply iloc_neg_in_range; lia. }
    rewrite <- (map_map (fun i => nth (length util - i) util nan) Val).
    rewrite collect_app_vals. cbn [seq map collect].
    unfold iloc_neg.
    destruct (Nat.leb_spec (1 + length util) (length util)); [lia|reflexivity].
  - intros Hrows. apply Hok.
    pose proof (make_supervised_length_le util L). lia.
Qed.

(** ** The order in which the points arrive *)

Lemma sorted_unique (a b : list point) :
  Sorted ts_le a -> Sorted ts_le b -> Permutation a b ->
  NoDup (map fst a) -> a = b.
Proof.
  revert b. induction a as [|x a IH]; intros b Ha Hb Hperm Hnd.
  - by apply Permutation_nil in Hperm.
  - destruct b as [|y b].
    { apply Permutation_sym, Permutation_nil in Hperm. done. }
    assert (Hxy : x = y).
    { assert (Hx : In x (y :: b)) by (apply (Permutation_in _ Hperm); by left).
      assert (Hy : In y (x :: a))
        by (apply (Permutation_in _ (Permutation_sym Hperm)); by left).
      pose proof (sorted_head_least x a y Ha Hy) as H1.
      pose proof (sorted_head_least y b x Hb Hx) as H2.
      destruct Hy as [Hy|Hy]; [done|].
      exfalso. simpl in Hnd. apply NoDup_cons in Hnd as [Hnotin _].
      apply Hnotin. apply list_elem_of_In.
      replace (fst x) with (fst y) by lia. by apply in_map. }
    subst y. f_equal. apply IH.
    + by inversion Ha.
    + by inversion Hb.
    + by apply Permutation_cons_inv in Hperm.
    + simpl in Hnd. by apply NoDup_cons in Hnd as [_ ?].
Qed.

(** X17.  When no two raw points share a timestamp, the order in which
    they arrive does not matter: two lists holding the same points sort to
    the same frame and normalise to the same series. *)
Theorem arrival_order_is_irrelevant (points1 points2 : list point) :
  Permutation points1 points2 ->
  NoDup (map fst points1) ->
  sort_values points1 = sort_values points2 /\
  normalize points1 = normalize points2.
Proof.
  intros Hperm Hnd.
  assert (Hsort : sort_values points1 = sort_values points2).
  { apply sorted_unique; try apply sort_values_sorted.
    - rewrite <- (sort_values_perm points1), <- (sort_values_perm points2).
      exact Hperm.
    - apply (proj1 (NoDup_Permutation_proper _ _
               (Permutation_map fst (sort_values_perm points1)))).
      exact Hnd. }
  split; [exact Hsort|]. by rewrite !normalize_unfold, Hsort.
Qed.

(** ** Moving the series in time *)

Lemma later_insert c p l :
  insert_by_ts (later c p) (map (later c) l) = map (later c) (insert_by_ts p l).
Proof.
  induction l as [|q r IH]; [done|]. simpl.
  destruct (Z.leb_spec (fst p + 5 * c) (fst q + 5 * c)),
           (Z.leb_spec (fst p) (fst q)); try lia; simpl; [done|].
  by rewrite <- IH.
Qed.

Lemma later_sort c l :
  sort_values (map (later c) l) = map (later c) (sort_values l).
Proof.
  induction l as [|p r IH]; [done|]. simpl. rewrite IH. apply later_insert.
Qed.

Lemma bucket_later t c : bucket (t + 5 * c) = bucket t + c.
Proof. unfold bucket. rewrite (Z.mul_comm 5 c). apply Z.div_add. lia. Qed.

Lemma later_bucket_values c k df :
  bucket_values (k + c) (map (later c) df) = bucket_values k df.
Proof.
  induction df as [|p r IH]; [done|]. cbn [map].
  rewrite !bucket_values_cons, IH. unfold later at 1 2. cbn [fst snd].
  rewrite bucket_later.
  destruct (Z.eqb_spec (bucket (fst p) + c) (k + c)),
           (Z.eqb_spec (bucket (fst p)) k); try lia; reflexivity.
Qed.

Lemma later_last c (l : list point) d :
  List.last (map (later c) l) (later c d) = later c (List.last l d).
Proof.
  induction l as [|p r IH]; [done|].
  destruct r as [|q r']; [done|]. exact IH.
Qed.

Lemma later_bucket c (q : point) : bucket (fst (later c q)) = bucket (fst q) + c.
Proof. unfold later. cbn [fst]. apply bucket_later. Qed.

Lemma later_resample c df :
  resample_5s_mean (map (later c) df) = map (later c) (resample_5s_mean df).
Proof.
  destruct df as [|p0 df']; [done|].
  pose proof (later_last c (p0 :: df') p0) as Hl. cbn [map] in Hl.
  unfold resample_5s_mean. cbv zeta. cbn [map]. rewrite Hl, !later_bucket, map_map.
  change (later c p0 :: map (later c) df') with (map (later c) (p0 :: df')).
  set (lo := bucket (fst p0)). set (hi := bucket (fst (List.last (p0 :: df') p0))).
  replace (seqZ (lo + c) (hi + c - (lo + c) + 1))
    with (map (Z.add c) (seqZ lo (hi - lo + 1))).
  2:{ change (map (Z.add c) (seqZ lo (hi - lo + 1)))
        with (Z.add c <$> seqZ lo (hi - lo + 1)).
      rewrite fmap_add_seqZ. f_equal; lia. }
  rewrite map_map. apply map_ext. intros k.
  replace (c + k) with (k + c) by lia. rewrite later_bucket_values.
  unfold later. cbn [fst snd]. f_equal. lia.
Qed.

Lemma later_ffill c prev s :
  ffill_from prev (map (later c) s) = map (later c) (ffill_from prev s).
Proof.
  revert prev. induction s as [|[t v] r IH]; intros prev; [done|].
  simpl. by rewrite IH.
Qed.

Lemma later_bfill c s : bfill (map (later c) s) = map (later c) (bfill s).
Proof.
  induction s as [|[t v] r IH]; [done|].
  simpl. rewrite IH. destruct (bfill r) as [|[t' w] r']; reflexivity.
Qed.

(** X19.  Moving every raw point by the same whole number of 5-second
    slots moves the normalised series by as much and changes none of its
    values: the utilisation series, and with it the dataset and the
    forecast, do not depend on where in time the window lies. *)
Theorem normalize_commutes_with_slot_shift (c : Z) (points : list point) :
  normalize (map (later c) points) = map (later c) (normalize points) /\
  map snd (normalize (map (later c) points)) = map snd (normalize points) /\
  forall limit,
    utilization (normalize (map (later c) points)) limit
    = utilization (normalize points) limit.
Proof.
  assert (H : normalize (map (later c) points) = map (later c) (normalize points)).
  { rewrite !normalize_unfold, later_sort, later_resample. unfold ffill.
    by rewrite later_ffill, later_bfill. }
  split; [exact H|]. rewrite H. split.
  - rewrite map_map. reflexivity.
  - intros limit. unfold utilization. rewrite map_map. reflexivity.
Qed.

Section ModelFacts.

Context `{SS : StandardScaler} `{LM : Lasso}.

Ltac run_monad :=
  unfold call_scaler_fit, call_scaler_transform, call_lasso_fit,
    call_lasso_predict, gauge_set, sleep, emit, lift, ret, bind in *.

(** X18.  Whenever the regressor is fitted, it is fitted on at least 16
    rows, with one target per row, and the targets are the first targets
    of the dataset, none of them missing. *)
Theorem regressor_gets_sixteen_rows cfg range_answer instant_answer (G : gauge)
    r G' evs Xtr ytr :
  iteration cfg range_answer instant_answer G = (r, G', evs) ->
  In (Xtr, ytr) (lasso_fit_calls evs) ->
  (16 <= length Xtr)%nat /\ length Xtr = length ytr /\ dense ytr /\
  exists jr jl,
    range_answer = Val jr /\ instant_answer = Val jl /\
    ytr = take (length ytr)
            (snd (make_supervised (iteration_util jr jl) (LAGS cfg))).
Proof.
  intros Hit Hin.
  assert (Hcall : lasso_fit_calls evs <> []) by (intros E; by rewrite E in Hin).
  destruct (iteration_fit_inv _ _ _ _ _ _ _ Hit (or_intror (or_introl Hcall)))
    as (jr & jl & r0 & -> & -> & Hne & Hge & Hfit & Hr).
  destruct (fit_run_calls _ _ _ _ _ _ _ _ Hfit Hcall)
    as (sc & Xs & Xtr' & Xte & ytr' & yte & _ & _ & Hsplit & _ & Hcalls & _).
  rewrite Hcalls in Hin. destruct Hin as [Hin|[]]. injection Hin as -> ->.
  destruct (train_test_split_ordered _ _ _ _ _ _ Hsplit)
    as (Hlen & HXtr & _ & Hytr & _).
  pose proof (make_supervised_same_length (iteration_util jr jl) (LAGS cfg)) as Hsame.
  pose proof (make_supervised_targets_dense (iteration_util jr jl) (LAGS cfg)) as Hd.
  set (y := snd (make_supervised (iteration_util jr jl) (LAGS cfg))) in *.
  destruct (n_test_bounds (length y)) as (Hb1 & Hb2 & Hb3).
  assert (Hk : length ytr = (length y - n_test (length y))%nat).
  { rewrite Hytr, length_take. lia. }
  split; [rewrite HXtr, length_take; lia|].
  split; [rewrite HXtr, Hytr, !length_take; lia|].
  split; [rewrite Hytr; unfold dense; by apply Forall_take|].
  exists jr, jl. split; [done|]. split; [done|]. by rewrite Hk.
Qed.

Lemma fit_and_publish_frame cfg util X y (G : gauge) :
  fit_and_publish cfg util X y G
  = ((fit_and_publish cfg util X y ∅).1.1,
     replay (published (fit_and_publish cfg util X y ∅).2) G,
     (fit_and_publish cfg util X y ∅).2).
Proof.
  unfold fit_and_publish. run_monad. simpl.
  destruct (scaler_fit X) as [sc|e]; simpl; [|done].
  destruct (scaler_transform sc X) as [Xs|e]; simpl; [|done].
  destruct (train_test_split Xs y) as [[[[Xtr Xte] ytr] yte]|e]; simpl; [|done].
  destruct (lasso_fit Xtr ytr) as [model|e]; simpl; [|done].
  destruct (latest_window util (LAGS cfg)) as [w|e]; simpl; [|done].
  destruct (scaler_transform sc (row_frame w)) as [x_last|e]; simpl; [|done].
  destruct (lasso_predict model x_last) as [pred|e]; simpl; [|done].
  destruct (item0 pred) as [yhat|e]; simpl; done.
Qed.

Lemma iteration_frame cfg range_answer instant_answer (G : gauge) :
  iteration cfg range_answer instant_answer G
  = ((iteration cfg range_answer instant_answer ∅).1.1,
     replay (published (iteration cfg range_answer instant_answer ∅).2) G,
     (iteration cfg range_answer instant_answer ∅).2).
Proof.
  destruct range_answer as [jr|e]; [|reflexivity].
  destruct (flatten_points jr) as [|p ps] eqn:Hp.
  { unfold iteration. run_monad. cbn beta iota. by rewrite Hp. }
  assert (Hne : flatten_points jr <> []) by (by rewrite Hp).
  destruct instant_answer as [jl|e].
  2:{ unfold iteration. run_monad. cbn beta iota. by rewrite Hp. }
  rewrite !(iteration_with_points cfg jr jl _ Hne). unfold bind.
  destruct (decide (length (fst (make_supervised (iteration_util jr jl) (LAGS cfg))) < 20)%nat)
    as [Hlt|Hge].
  - by rewrite !(forecast_too_few _ _ _ Hlt).
  - rewrite !forecast_enough by lia.
    rewrite (fit_and_publish_frame cfg _ _ _ G).
    destruct (fit_and_publish cfg (iteration_util jr jl) _ _ ∅) as [[[u|e] G0] evs];
      simpl; by rewrite ?app_nil_r, ?published_app.
Qed.

Lemma loop_step_frame cfg range_answer instant_answer (G : gauge) :
  loop_step cfg range_answer instant_answer G
  = (replay (published (loop_step cfg range_answer instant_answer ∅).2) G,
     (loop_step cfg range_answer instant_answer ∅).2).
Proof.
  unfold loop_step. rewrite (iteration_frame cfg range_answer instant_answer G).
  destruct (iteration cfg range_answer instant_answer ∅) as [[[[|]|e] G0] evs];
    simpl; rewrite ?published_app; simpl; by rewrite ?app_nil_r.
Qed.

(** X20.  The loop never reads the gauge: the effects of a run (the
    estimator calls, the values written, the errors logged) are the same
    whatever the gauge holds, so no forecast depends on an earlier one. *)
Theorem loop_never_reads_the_gauge cfg answers (G1 G2 : gauge) :
  (loop cfg answers G1).2 = (loop cfg answers G2).2 /\
  published (loop cfg answers G1).2 = published (loop cfg answers G2).2 /\
  forall range_answer instant_answer,
    (iteration cfg range_answer instant_answer G1).1.1
    = (iteration cfg range_answer instant_answer G2).1.1.
Proof.
  assert (H : forall G, (loop cfg answers G).2 = (loop cfg answers ∅).2).
  { induction answers as [|[jr jl] rest IH]; intros G; [done|].
    simpl. rewrite (loop_step_frame cfg jr jl G).
    rewrite (surjective_pairing (loop_step cfg jr jl ∅)).
    rewrite (loop_step_frame cfg jr jl ∅). cbn [fst snd].
    rewrite (surjective_pairing (loop cfg rest (replay _ G))).
    rewrite (surjective_pairing (loop cfg rest (replay _ ∅))).
    cbn [snd]. by rewrite (IH (replay _ G)), (IH (replay _ ∅)). }
  split; [by rewrite (H G1), (H G2)|].
  split; [by rewrite (H G1), (H G2)|].
  intros ra ia. by rewrite (iteration_frame cfg ra ia G1), (iteration_frame cfg ra ia G2).
Qed.

End ModelFacts.

(** ** The further properties on concrete inputs *)


Lemma loop_sleeps_once_per_turn_witness :
  sleep_accepts (INTERVAL demo_config) /\
  sleeps (@loop reference_scaler intercept_model demo_config
            [(Val demo_usage, Val demo_limit); (Val [], Val demo_limit);
             (Raise RequestException, Val demo_limit)] ∅).2
  = [60; 60; 60].
Proof.
  assert (Hi : sleep_accepts (INTERVAL demo_config)).
  { unfold sleep_accepts. cbn. lia. }
  split; [exact Hi|].
  destruct (@loop_sleeps_once_per_turn reference_scaler intercept_model
              demo_config Hi) as [_ H].
  exact (H [(Val demo_usage, Val demo_limit); (Val [], Val demo_limit);
            (Raise RequestException, Val demo_limit)] ∅).
Defined.

Lemma failed_iteration_keeps_gauge_witness :
  @iteration reference_scaler intercept_model demo_config
    (Val demo_usage) (Raise KeyError) {[ "cpu-demo"%string := f0_5 ]}
  = (Raise KeyError, {[ "cpu-demo"%string := f0_5 ]}, []) /\
  @loop_step reference_scaler intercept_model demo_config
    (Val demo_usage) (Raise KeyError) {[ "cpu-demo"%string := f0_5 ]}
  = ({[ "cpu-demo"%string := f0_5 ]},
     [ev_log_error KeyError; ev_sleep 60]).
Proof.
  assert (Hit : @iteration reference_scaler intercept_model demo_config
                  (Val demo_usage) (Raise KeyError) {[ "cpu-demo"%string := f0_5 ]}
                = (Raise KeyError, {[ "cpu-demo"%string := f0_5 ]}, []))
    by reflexivity.
  split; [exact Hit|].
  destruct (@failed_iteration_keeps_gauge reference_scaler intercept_model
              demo_config (Val demo_usage) (Raise KeyError)
              {[ "cpu-demo"%string := f0_5 ]} KeyError _ _ Hit) as (_ & _ & H).
  exact H.
Defined.

Lemma loop_writes_deployment_label_only_witness :
  "other"%string <> DEPLOY demo_config /\
  (@loop reference_scaler intercept_model demo_config
     [(Val demo_usage, Val demo_limit)] {[ "other"%string := f0_5 ]}).1
    !! "other"%string
  = ({[ "other"%string := f0_5 ]} : gauge) !! "other"%string.
Proof.
  assert (Hne : "other"%string <> DEPLOY demo_config) by discriminate.
  split; [exact Hne|].
  destruct (@loop_writes_deployment_label_only reference_scaler intercept_model
              demo_config [(Val demo_usage, Val demo_limit)]
              {[ "other"%string := f0_5 ]} "other"%string Hne) as (H & _).
  exact H.
Defined.

Lemma gauge_stays_in_forecast_range_witness :
  (forall l v, (∅ : gauge) !! l = Some v -> in_forecast_range v) /\
  Forall (fun w => in_forecast_range (snd w) /\ isnan (snd w) = false)
    (published (@loop reference_scaler (constant_model (of_Z 5)) demo_config
                  [(Val demo_usage, Val demo_limit)] ∅).2).
Proof.
  assert (H0 : forall l v, (∅ : gauge) !! l = Some v -> in_forecast_range v).
  { intros l v Hl. rewrite lookup_empty in Hl. discriminate Hl. }
  split; [exact H0|].
  destruct (@gauge_stays_in_forecast_range reference_scaler
              (constant_model (of_Z 5)) demo_config
              [(Val demo_usage, Val demo_limit)] ∅ H0) as (_ & H).
  exact H.
Defined.

Lemma missing_usage_keys_mean_no_data_witness :
  ~ (400 <= 200 < 600) /\
  @turn reference_scaler intercept_model demo_config
    bare_usage_reply ok_limit_reply ∅
  = (∅, [ev_sleep 60]).
Proof.
  assert (Hc : ~ (400 <= 200 < 600)) by lia.
  split; [exact Hc|].
  exact (@missing_usage_keys_mean_no_data reference_scaler intercept_model
           demo_config 200 {| range_data_key := None |} ok_limit_reply ∅ Hc
           (or_introl eq_refl)).
Defined.

Lemma missing_limit_keys_abort_turn_witness :
  then_decode (prom_range ok_usage_reply) usage_result = Val demo_usage /\
  flatten_points demo_usage <> [] /\
  @turn reference_scaler intercept_model demo_config
    ok_usage_reply bare_limit_reply ∅
  = (∅, [ev_log_error KeyError; ev_sleep 60]).
Proof.
  assert (Hjr : then_decode (prom_range ok_usage_reply) usage_result
                = Val demo_usage) by reflexivity.
  assert (Hp : flatten_points demo_usage <> []) by (vm_compute; discriminate).
  assert (Hc : ~ (400 <= 200 < 600)) by lia.
  split; [exact Hjr|]. split; [exact Hp|].
  destruct (@missing_limit_keys_abort_turn reference_scaler intercept_model
              demo_config ok_usage_reply demo_usage 200
              {| instant_data_key := None |} ∅ Hjr Hp Hc (or_introl eq_refl))
    as [_ H].
  exact H.
Defined.

Lemma unreadable_sample_aborts_turn_witness :
  In garbled_sample (default [] (values_key garbled_series)) /\
  sample_value garbled_sample = Raise ValueError /\
  exists e',
    usage_result garbled_usage_doc = Raise e' /\
    @turn reference_scaler intercept_model demo_config
      (Val {| status_code := 200; json_body := Some garbled_usage_doc |})
      ok_limit_reply ∅
    = (∅, [ev_log_error e'; ev_sleep 60]).
Proof.
  assert (Hin : In garbled_sample (default [] (values_key garbled_series)))
    by (right; left; reflexivity).
  assert (Hc : ~ (400 <= 200 < 600)) by lia.
  split; [exact Hin|]. split; [reflexivity|].
  exact (@unreadable_sample_aborts_turn reference_scaler intercept_model
           demo_config 200 garbled_usage_doc
           {| range_result_key := Some [garbled_series] |} [garbled_series]
           garbled_series _ garbled_sample ValueError ok_limit_reply ∅
           Hc eq_refl eq_refl (or_introl eq_refl) eq_refl Hin eq_refl).
Defined.

Lemma normalize_covers_the_window_witness :
  minute_series <> [] /\
  exists p0 pl : point,
    In p0 minute_series /\ In pl minute_series /\
    length (normalize minute_series) = slots_between (fst p0) (fst pl) /\
    on_cadence 5 (5 * bucket (fst p0)) (normalize minute_series).
Proof.
  assert (Hne : minute_series <> []) by discriminate.
  split; [exact Hne|].
  destruct (normalize_covers_the_window minute_series Hne)
    as (p0 & pl & H0 & Hl & _ & Hlen & _ & Hc & _).
  exists p0, pl. split; [exact H0|]. split; [exact Hl|].
  split; [exact Hlen|exact Hc].
Defined.

Lemma normalize_leaves_no_gap_witness :
  (exists t v, In (t, v) (resample_5s_mean (sort_values minute_series))
               /\ isnan v = false) /\
  dense (map snd (normalize minute_series)).
Proof.
  assert (Hsome : exists t v,
            In (t, v) (resample_5s_mean (sort_values minute_series))
            /\ isnan v = false).
  { exists 0, (of_Z 1). split; [vm_compute; left; reflexivity|reflexivity]. }
  split; [exact Hsome|].
  exact (normalize_leaves_no_gap minute_series Hsome).
Defined.

Lemma coarse_series_is_repeated_witness :
  on_cadence (5 * Z.of_nat 12) (5 * 340000000) eight_minutes /\
  Forall (fun p => plain_value (snd p)) eight_minutes /\
  length (normalize eight_minutes) = 85%nat /\
  normalize eight_minutes !! 23%nat = Some (1700000115, of_Z 2).
Proof.
  assert (Hc : on_cadence (5 * Z.of_nat 12) (5 * 340000000) eight_minutes).
  { simpl. repeat split. }
  assert (Hv : Forall (fun p => plain_value (snd p)) eight_minutes).
  { repeat constructor; discriminate. }
  assert (Hne : eight_minutes <> []) by discriminate.
  assert (H12 : (1 <= 12)%nat) by lia.
  split; [exact Hc|]. split; [exact Hv|].
  destruct (coarse_series_is_repeated 12 eight_minutes 340000000 H12 Hc Hv Hne)
    as [Hlen Hrep].
  split; [exact Hlen|].
  assert (Hnext : (2 < length eight_minutes)%nat) by (vm_compute; lia).
  assert (H11 : (11 < 12)%nat) by lia.
  exact (Hrep 1%nat (1700000060, of_Z 2) 11%nat eq_refl H11 (or_introl Hnext)).
Defined.

Lemma missing_utilisation_publishes_zero_witness :
  flatten_points demo_usage <> [] /\
  @iteration reference_scaler intercept_model demo_config
    (Val demo_usage) (Val [nan]) ∅
  = (Val FallThrough, <[ "cpu-demo"%string := f0_0 ]> ∅,
     [ev_gauge_set "cpu-demo"%string f0_0]).
Proof.
  assert (Hp : flatten_points demo_usage <> []) by (vm_compute; discriminate).
  split; [exact Hp|].
  destruct (@missing_utilisation_publishes_zero reference_scaler intercept_model
              demo_config demo_usage [nan] ∅ Hp
              (or_introl (ex_intro _ [] eq_refl))) as (_ & _ & H).
  exact H.
Defined.

Lemma fit_needs_lags_plus_twenty_slots_witness :
  flatten_points demo_usage <> [] /\
  dense (iteration_util demo_usage demo_limit) /\
  length (fst (make_supervised (iteration_util demo_usage demo_limit)
                 (LAGS demo_config)))
  = (length (normalize (flatten_points demo_usage)) - LAGS demo_config)%nat.
Proof.
  assert (Hp : flatten_points demo_usage <> []) by (vm_compute; discriminate).
  assert (Hd : dense (iteration_util demo_usage demo_limit)).
  { unfold dense. vm_compute. repeat constructor. }
  split; [exact Hp|]. split; [exact Hd|].
  destruct (@fit_needs_lags_plus_twenty_slots reference_scaler intercept_model
              demo_config demo_usage demo_limit ∅ Hp Hd) as (H & _).
  exact H.
Defined.

Lemma arrival_order_is_irrelevant_witness :
  Permutation minute_series (rev minute_series) /\
  NoDup (map fst minute_series) /\
  normalize minute_series = normalize (rev minute_series).
Proof.
  assert (Hperm : Permutation minute_series (rev minute_series))
    by apply perm_swap.
  assert (Hnd : NoDup (map fst minute_series)).
  { simpl. apply NoDup_cons_2; [|apply NoDup_singleton].
    intros H. apply list_elem_of_In in H. destruct H as [H|[]]. discriminate H. }
  split; [exact Hperm|]. split; [exact Hnd|].
  destruct (arrival_order_is_irrelevant minute_series (rev minute_series)
              Hperm Hnd) as [_ H].
  exact H.
Defined.

Lemma regressor_gets_sixteen_rows_witness :
  exists (Xtr : matrix) (ytr : list float),
    In (Xtr, ytr) (@lasso_fit_calls reference_scaler intercept_model
                     (demo_run intercept_model).2) /\
    (16 <= length Xtr)%nat /\ length Xtr = length ytr /\ dense ytr.
Proof.
  set (Xtr := nth 0 (map fst (@lasso_fit_calls reference_scaler intercept_model
                                (demo_run intercept_model).2)) []).
  set (ytr := nth 0 (map snd (@lasso_fit_calls reference_scaler intercept_model
                                (demo_run intercept_model).2)) []).
  assert (Hin : In (Xtr, ytr) (@lasso_fit_calls reference_scaler intercept_model
                                 (demo_run intercept_model).2)).
  { vm_compute. left. reflexivity. }
  destruct (@regressor_gets_sixteen_rows reference_scaler intercept_model
              demo_config (Val demo_usage) (Val demo_limit) ∅
              (demo_run intercept_model).1.1 (demo_run intercept_model).1.2
              (demo_run intercept_model).2 Xtr ytr
              (run_components _) Hin) as (H1 & H2 & H3 & _).
  exists Xtr, ytr. split; [exact Hin|]. split; [exact H1|].
  split; [exact H2|exact H3].
Defined.

(** The default of 60 lags on eight one-minute samples: 85 slots, 25 rows,
    so a model is fitted on five minutes of history per row. *)
Example eight_minutes_are_enough_for_sixty_lags :
  length (normalize eight_minutes) = 85%nat /\
  length (fst (make_supervised (utilization (normalize eight_minutes) (of_Z 4)) 60))
  = 25%nat.
Proof. by vm_compute. Qed.

(** A series with one gap: the rows whose window touches the gap go. *)
Example gappy_series_rows :
  make_supervised gappy_series 2
  = ([[of_Z 5; of_Z 4]; [of_Z 6; of_Z 5]], [of_Z 6; of_Z 7]).
Proof. by vm_compute. Qed.
